(** * cfntdv: CloudFormation template dependency visualisation

    A shallow embedding of [src/cfntdv/main.py] and the properties its
    specification states about it.

    Conventions of the embedding.
    - A Python [str] is a [string]: the sequence of its UTF-8 bytes.  Every
      character the program looks at literally is ASCII, a byte of a longer
      UTF-8 sequence is never an ASCII byte, and byte-wise lexicographic order
      is code-point order, so matching, replacing and sorting agree with
      Python's.
    - Values decoded by [json.loads] are the inductive type [value]; a [dict]
      is an association list in insertion order.
    - Code that can raise is written in the error monad [result].
    - The regular expressions of the program are terms of [Re.regex], run by a
      backtracking matcher that follows the priority order of Python's [re]. *)

From Stdlib Require Import Ascii String ZArith Lia SpecFloat.
From stdpp Require Import gmap strings list sorting.

#[local] Set Warnings "-clear-no-such-hyp".

Local Open Scope string_scope.

(** ** Strings *)

Module Str.

(** [s.startswith(p)], returning what follows the prefix. *)
Fixpoint strip_prefix (p s : string) : option string :=
  match p with
  | "" => Some s
  | String a p' =>
      match s with
      | String b s' => if Ascii.eqb a b then strip_prefix p' s' else None
      | "" => None
      end
  end.

(** [needle in s]: substring test. *)
Fixpoint contains (needle s : string) : bool :=
  match strip_prefix needle s with
  | Some _ => true
  | None => match s with "" => false | String _ s' => contains needle s' end
  end.

(** [s.replace(c, "")] for a one-character [c]. *)
Fixpoint remove (c : ascii) (s : string) : string :=
  match s with
  | "" => ""
  | String a s' => if Ascii.eqb a c then remove c s' else String a (remove c s')
  end.

(** ["\n".join(l)]. *)
Fixpoint join (sep : string) (l : list string) : string :=
  match l with
  | [] => ""
  | [x] => x
  | x :: l' => x ++ sep ++ join sep l'
  end.

(** [s.split(c)] for a one-character separator (never an empty list). *)
Fixpoint split (c : ascii) (s : string) : list string :=
  match s with
  | "" => [""]
  | String a s' =>
      if Ascii.eqb a c then "" :: split c s'
      else match split c s' with
           | w :: ws => String a w :: ws
           | [] => [String a ""]
           end
  end.

Definition nl : ascii := "010"%char.

End Str.

(** ** Regular expressions

    The fragment of Python's [re] the program uses: literals, character sets
    ([.] and bracket classes), concatenation, alternation, numbered groups, and
    the quantifiers [*], [+], [*?], [+?] applied to one character set.  The
    matcher is the usual backtracking one: alternatives are tried left to
    right, a greedy quantifier tries the longest repetition first and a lazy
    one the shortest.  The continuation receives the text matched so far, the
    remaining input and the groups captured. *)

Module Re.

Definition charset := ascii → bool.

Inductive regex :=
| Lit (l : string)
| Any (cs : charset)
| Seq (r1 r2 : regex)
| Alt (r1 r2 : regex)
| Star (greedy : bool) (cs : charset)
| Group (n : nat) (r : regex).

(** [X+] and [X+?]. *)
Definition Plus (greedy : bool) (cs : charset) : regex :=
  Seq (Any cs) (Star greedy cs).

(** [.] without the DOTALL flag: anything but a line feed. *)
Definition dot : charset := fun c => negb (Ascii.eqb c Str.nl).

Definition in_range (lo hi c : ascii) : bool :=
  (nat_of_ascii lo <=? nat_of_ascii c)%nat && (nat_of_ascii c <=? nat_of_ascii hi)%nat.

Abbreviation groups := (gmap nat string).

Definition orelse {R} (x y : option R) : option R :=
  match x with Some _ => x | None => y end.

Section matcher.
Context {R : Type}.

Fixpoint rep (greedy : bool) (cs : charset) (s : string)
    (k : string → string → option R) : option R :=
  let more :=
    match s with
    | String a s' =>
        if cs a then rep greedy cs s' (fun m rest => k (String a m) rest) else None
    | "" => None
    end in
  if greedy then orelse more (k "" s) else orelse (k "" s) more.

Fixpoint run (r : regex) (s : string) (g : groups)
    (k : string → string → groups → option R) : option R :=
  match r with
  | Lit l =>
      match Str.strip_prefix l s with
      | Some rest => k l rest g
      | None => None
      end
  | Any cs =>
      match s with
      | String a rest => if cs a then k (String a "") rest g else None
      | "" => None
      end
  | Seq r1 r2 =>
      run r1 s g (fun m1 s1 g1 =>
        run r2 s1 g1 (fun m2 s2 g2 => k (m1 ++ m2) s2 g2))
  | Alt r1 r2 => orelse (run r1 s g k) (run r2 s g k)
  | Star greedy cs => rep greedy cs s (fun m rest => k m rest g)
  | Group n r1 => run r1 s g (fun m rest g1 => k m rest (<[n := m]> g1))
  end.
End matcher.

(** [pattern.match(s)]: the match anchored at the start of [s], as the
    matched text, what follows it, and the groups. *)
Definition match_here (r : regex) (s : string) : option (string * string * groups) :=
  run r s ∅ (fun m rest g => Some (m, rest, g)).

(** [pattern.fullmatch(s)]: the groups of a match spanning all of [s]. *)
Definition fullmatch (r : regex) (s : string) : option groups :=
  run r s ∅ (fun _ rest g => if decide (rest = "") then Some g else None).

(** [m.group(n)] for a group that took part in the match. *)
Definition group (g : groups) (n : nat) : string := default "" (g !! n).

(** [pattern.findall(s)] for a pattern without groups: the texts of the
    non-overlapping matches, scanning left to right.  [skip] counts the
    characters of the previous match still to be passed over. *)
Fixpoint findall_from (r : regex) (s : string) (skip : nat) : list string :=
  match skip with
  | S n => match s with "" => [] | String _ s' => findall_from r s' n end
  | O =>
      match match_here r s with
      | Some (m, _, _) =>
          m :: match s with "" => [] | String _ s' => findall_from r s' (String.length m - 1) end
      | None => match s with "" => [] | String _ s' => findall_from r s' 0 end
      end
  end.

Definition findall (r : regex) (s : string) : list string := findall_from r s 0.

(** [pattern.sub(repl, s)] with [repl] a function of the groups; the
    unmatched characters are copied. *)
Fixpoint sub_from (r : regex) (repl : groups → string) (s : string) (skip : nat) : string :=
  match skip with
  | S n => match s with "" => "" | String _ s' => sub_from r repl s' n end
  | O =>
      match match_here r s with
      | Some (m, _, g) =>
          repl g ++
          match s with
          | "" => ""
          | String a s' =>
              match m with
              | "" => String a (sub_from r repl s' 0)
              | String _ m' => sub_from r repl s' (String.length m')
              end
          end
      | None => match s with "" => "" | String a s' => String a (sub_from r repl s' 0) end
      end
  end.

Definition sub (r : regex) (repl : groups → string) (s : string) : string :=
  sub_from r repl s 0.

End Re.

(** ** The patterns of the program *)

(** [DYNAMIC_REF_PATTERN = re.compile(r"\{\{resolve:.*?}}")] *)
Definition DYNAMIC_REF_PATTERN : Re.regex :=
  Re.Seq (Re.Lit "{{resolve:") (Re.Seq (Re.Star false Re.dot) (Re.Lit "}}")).

Definition service_tags : Re.regex :=
  Re.Alt (Re.Lit "ssm") (Re.Alt (Re.Lit "ssm-secure") (Re.Lit "secretsmanager")).

(** [DYN_NODE_PATTERN =
      re.compile(r"\{\{resolve:(ssm|ssm-secure|secretsmanager):(.+?)}}")] *)
Definition DYN_NODE_PATTERN : Re.regex :=
  Re.Seq (Re.Lit "{{resolve:")
    (Re.Seq (Re.Group 1 service_tags)
       (Re.Seq (Re.Lit ":")
          (Re.Seq (Re.Group 2 (Re.Plus false Re.dot)) (Re.Lit "}}")))).

(** [[A-Za-z0-9_]] *)
Definition identifier_char : Re.charset := fun c =>
  Re.in_range "A" "Z" c || Re.in_range "a" "z" c || Re.in_range "0" "9" c
  || Ascii.eqb c "_".

(** [r"\$\{([A-Za-z0-9_]+)\}"] *)
Definition PLACEHOLDER_PATTERN : Re.regex :=
  Re.Seq (Re.Lit "${") (Re.Seq (Re.Group 1 (Re.Plus true identifier_char)) (Re.Lit "}")).

(** [normalize_dynamic_node]: [re.sub(r"\$\{([A-Za-z0-9_]+)\}", r"$\1", node)],
    then [.replace("{", "").replace("}", "")]. *)
Definition normalize_dynamic_node (node : string) : string :=
  let normalized := Re.sub PLACEHOLDER_PATTERN (fun g => "$" ++ Re.group g 1) node in
  Str.remove "}" (Str.remove "{" normalized).

(** ** Decoded documents

    What [json.loads] returns: [None], booleans, integers, floats (a sign, a
    mantissa and a binary exponent, or zero, an infinity, a NaN), strings,
    lists, and dicts with string keys. *)

#[local] Unset Elimination Schemes.
Inductive value :=
| VNone
| VBool (b : bool)
| VInt (n : Z)
| VFloat (f : spec_float)
| VStr (s : string)
| VList (items : list value)
| VDict (items : list (string * value)).
#[local] Set Elimination Schemes.

(** [bool(v)], the test made by [if v:]. *)
Definition truthy (v : value) : bool :=
  match v with
  | VNone => false
  | VBool b => b
  | VInt n => negb (n =? 0)%Z
  | VFloat (S754_zero _) => false
  | VFloat _ => true
  | VStr s => negb (String.eqb s "")
  | VList items => negb (bool_decide (items = []))
  | VDict items => negb (bool_decide (items = []))
  end.

(** *** Elements of a Python [set]

    A set holds hashable objects and merges those that compare equal, so
    [True], [1] and [1.0] are one element.  An [atom] is a hashable scalar up
    to that equality: numbers are normalised (an integral float is the
    integer, any other finite float is an odd mantissa with a negative
    exponent).  Lists and dicts are not hashable. *)

Inductive atom :=
| ANone
| AInt (n : Z)
| AFrac (neg : bool) (m : positive) (e : Z)
| AInf (neg : bool)
| ANaN
| AStr (s : string).

#[global] Instance atom_eq_dec : EqDecision atom.
Proof. solve_decision. Defined.

Definition atom_encode (a : atom) : unit + Z + (bool * positive * Z) + bool + unit + string :=
  match a with
  | ANone => inl (inl (inl (inl (inl tt))))
  | AInt n => inl (inl (inl (inl (inr n))))
  | AFrac s m e => inl (inl (inl (inr (s, m, e))))
  | AInf s => inl (inl (inr s))
  | ANaN => inl (inr tt)
  | AStr s => inr s
  end.

Definition atom_decode (x : unit + Z + (bool * positive * Z) + bool + unit + string) : atom :=
  match x with
  | inl (inl (inl (inl (inl _)))) => ANone
  | inl (inl (inl (inl (inr n)))) => AInt n
  | inl (inl (inl (inr (s, m, e)))) => AFrac s m e
  | inl (inl (inr s)) => AInf s
  | inl (inr _) => ANaN
  | inr s => AStr s
  end.

#[global] Instance atom_countable : Countable atom.
Proof. apply (inj_countable' atom_encode atom_decode). by intros []. Defined.

(** The odd part of a mantissa and the number of binary zeros removed. *)
Fixpoint odd_part (m : positive) : positive * Z :=
  match m with
  | xO p => let '(q, t) := odd_part p in (q, (t + 1)%Z)
  | _ => (m, 0%Z)
  end.

Definition float_key (f : spec_float) : atom :=
  match f with
  | S754_zero _ => AInt 0
  | S754_infinity s => AInf s
  | S754_nan => ANaN
  | S754_finite s m e =>
      let '(q, t) := odd_part m in
      let e' := (e + t)%Z in
      if (0 <=? e')%Z then AInt ((if s then -1 else 1) * (Z.pos q * 2 ^ e'))
      else AFrac s q e'
  end.

(** The element a value is in a set, [None] when it is unhashable. *)
Definition hash_key (v : value) : option atom :=
  match v with
  | VNone => Some ANone
  | VBool b => Some (AInt (if b then 1 else 0))
  | VInt n => Some (AInt n)
  | VFloat f => Some (float_key f)
  | VStr s => Some (AStr s)
  | VList _ | VDict _ => None
  end.

(** *** Exceptions *)

Inductive exn := TypeError | AttributeError.

Inductive result (A : Type) :=
| Ok (a : A)
| Raise (e : exn).
Arguments Ok {A} a.
Arguments Raise {A} e.

#[global] Instance result_ret : MRet result := λ A a, Ok a.
#[global] Instance result_bind : MBind result := λ A B f m,
  match m with Ok a => f a | Raise e => Raise e end.

(** A [for] loop whose body updates the state [S] and may raise. *)
Definition for_each {A S : Type} (body : A → S → result S) : list A → S → result S :=
  fix go l s :=
    match l with
    | [] => Ok s
    | x :: l' => s' ← body x s; go l' s'
    end.

(** [s.add(v)]: [TypeError: unhashable type] for a list or a dict. *)
Definition set_add (v : value) (s : gset atom) : result (gset atom) :=
  match hash_key v with
  | Some a => Ok ({[a]} ∪ s)
  | None => Raise TypeError
  end.

(** [d.get(key)] on the items of a dict. *)
Fixpoint dict_get (key : string) (items : list (string * value)) : option value :=
  match items with
  | [] => None
  | (k, v) :: rest => if decide (k = key) then Some v else dict_get key rest
  end.

(** [obj.get(key, dflt)]: only a dict has the method. *)
Definition get (obj : value) (key : string) (dflt : value) : result value :=
  match obj with
  | VDict items => Ok (default dflt (dict_get key items))
  | _ => Raise AttributeError
  end.

(** [obj.values()] *)
Definition values (obj : value) : result (list value) :=
  match obj with
  | VDict items => Ok (items.*2)
  | _ => Raise AttributeError
  end.

(** [key in obj]: a key of a dict, an element of a list, a substring of a
    string; [TypeError] for the other scalars, which are not iterable. *)
Definition contains (key : string) (obj : value) : result bool :=
  match obj with
  | VDict items => Ok (bool_decide (key ∈ items.*1))
  | VList items =>
      Ok (existsb (λ v, match v with VStr s => String.eqb s key | _ => false end) items)
  | VStr s => Ok (Str.contains key s)
  | _ => Raise TypeError
  end.

(** ** Reference scanner *)

Record ScanResult (C : Type) := {
  exports : C;
  imports : C;
  dynamics : C;
}.
Arguments exports {C} _.
Arguments imports {C} _.
Arguments dynamics {C} _.

Definition target_key : string := "Fn::ImportValue".

(** [find_imports(obj, imports)]; the set is updated in place in the source
    and threaded through here. *)
Fixpoint find_imports (obj : value) (imports : gset atom) : result (gset atom) :=
  match obj with
  | VDict items =>
      for_each (λ '(key, value) imports,
        imports ← (if decide (key = target_key) then set_add value imports else Ok imports);
        find_imports value imports) items imports
  | VList items => for_each (λ item imports, find_imports item imports) items imports
  | _ => Ok imports
  end.

(** [find_dynamic_references(obj, dynamics)]; nothing in it can raise. *)
Fixpoint find_dynamic_references (obj : value) (dynamics : gset atom) : gset atom :=
  match obj with
  | VDict items =>
      foldl (λ dynamics '(_, value), find_dynamic_references value dynamics) dynamics items
  | VList items => foldl (λ dynamics item, find_dynamic_references item dynamics) dynamics items
  | VStr s => foldl (λ dynamics m, {[AStr m]} ∪ dynamics) dynamics (Re.findall DYNAMIC_REF_PATTERN s)
  | _ => dynamics
  end.

(** The loop over [outputs.values()] of [extract_exports_and_imports]. *)
Definition collect_exports : list value → gset atom → result (gset atom) :=
  for_each (λ v exports,
    e ← get v "Export" (VDict []);
    export ← get e "Name" VNone;
    if truthy export then set_add export exports else Ok exports).

(** The [Outputs] part of [extract_exports_and_imports]. *)
Definition scan_exports (parsed_data : value) : result (gset atom) :=
  let key_to_find := "Outputs" in
  found ← contains key_to_find parsed_data;
  if found : bool then
    outputs ← get parsed_data key_to_find VNone;
    vs ← values outputs;
    collect_exports vs ∅
  else Ok ∅.

(** [extract_exports_and_imports], from the decoded document on: reading and
    decoding the file is the work of the external decoder. *)
Definition extract_exports_and_imports (parsed_data : value) : result (ScanResult (gset atom)) :=
  exports ← scan_exports parsed_data;
  imports ← find_imports parsed_data ∅;
  let dynamics := find_dynamic_references parsed_data ∅ in
  Ok {| exports := exports; imports := imports; dynamics := dynamics |}.

(** ** Dependency graph builder *)

(** An edge is the tuple [(src, dst, imp, typ)]. *)
Definition edge : Type := string * string * string * string.

Definition edge_src (e : edge) : string := e.1.1.1.
Definition edge_dst (e : edge) : string := e.1.1.2.
Definition edge_label (e : edge) : string := e.1.2.
Definition edge_kind (e : edge) : string := e.2.

(** [nodes[export] = path] for every export of every template, in order. *)
Definition build_nodes (template_info : list (string * ScanResult (list string)))
    : gmap string string :=
  foldl (λ nodes '(path, info),
    foldl (λ nodes export, <[export := path]> nodes) nodes (exports info))
    ∅ template_info.

(** The edges appended for one template. *)
Definition template_edges (nodes : gmap string string)
    (path : string) (info : ScanResult (list string)) (edges : list edge) : list edge :=
  let edges :=
    foldl (λ edges imp,
      match nodes !! imp with
      | Some producer => edges ++ [(path, producer, imp, "import")]
      | None => edges ++ [(path, "(unknown)", imp, "import")]
      end)%list edges (imports info) in
  (edges ++ ((λ dyn, (path, dyn, dyn, "dynamic")) <$> dynamics info))%list.

(** [build_dependency_graph(template_info)].  The dict [template_info] is the
    list of its items in insertion order, and each collection of a
    [ScanResult] the list of its elements in iteration order. *)
Definition build_dependency_graph (template_info : list (string * ScanResult (list string)))
    : gmap string string * list edge :=
  let nodes := build_nodes template_info in
  let edges :=
    foldl (λ edges '(path, info), template_edges nodes path info edges) [] template_info in
  (nodes, edges).

(** ** Diagram renderer *)

(** [Path(p).name] on a POSIX system: the last component of the path, where
    empty components and [.] do not count; empty when there is none. *)
Definition path_name (p : string) : string :=
  default "" (last (filter (λ x, x ≠ "" ∧ x ≠ ".") (Str.split "/" p))).

(** [Path(p).name if p not in ("(unknown)",) else p] *)
Definition short_name (p : string) : string :=
  if decide (p ≠ "(unknown)") then path_name p else p.

(** The pattern written out in the fallback branch of [generate_mermaid_text]:
    [r"\{\{resolve:(ssm|ssm-secure|secretsmanager):(.+?)}}"]. *)
Definition FALLBACK_PATTERN : Re.regex :=
  Re.Seq (Re.Lit "{{resolve:")
    (Re.Seq (Re.Group 1 (Re.Alt (Re.Lit "ssm") (Re.Alt (Re.Lit "ssm-secure") (Re.Lit "secretsmanager"))))
       (Re.Seq (Re.Lit ":")
          (Re.Seq (Re.Group 2 (Re.Seq (Re.Any Re.dot) (Re.Star false Re.dot))) (Re.Lit "}}")))).

(** The label and the node of a dynamic edge. *)
Definition dynamic_label_node (imp : string) : string * string :=
  match Re.fullmatch DYN_NODE_PATTERN imp with
  | Some m => (Re.group m 1, normalize_dynamic_node (Re.group m 2))
  | None =>
      match Re.fullmatch FALLBACK_PATTERN imp with
      | Some dyn_match =>
          (Re.group dyn_match 1, normalize_dynamic_node (Re.group dyn_match 2))
      | None => ("dynamic", normalize_dynamic_node imp)
      end
  end.

(** The body of the loop over [edges]: the line appended to [edge_lines]. *)
Definition edge_line (e : edge) : string :=
  let '(src, dst, imp, typ) := e in
  let src_name := short_name src in
  if decide (typ = "dynamic") then
    let '(label, node) := dynamic_label_node imp in
    "    " ++ src_name ++ "-->|" ++ label ++ "|" ++ node ++ "[(" ++ node ++ ")]"
  else
    let dst_name := short_name dst in
    "    " ++ src_name ++ "-->|" ++ imp ++ "|" ++ dst_name.

Definition newline : string := String Str.nl "".

(** The text built by [generate_mermaid_text]; [list.sort] on strings is the
    sorted permutation for the code-point order. *)
Definition mermaid_text (edges : list edge) (direction : string) : string :=
  let mermaid_lines :=
    ["# CFn template dependency" ++ newline ++ newline ++ "```mermaid"; "graph " ++ direction] in
  let edge_lines := merge_sort String.le (edge_line <$> edges) in
  let footer := "```" ++ newline in
  Str.join newline (mermaid_lines ++ edge_lines ++ [footer])%list.

(** *** Output

    The world the renderer acts on: what the operating system answers when a
    path is opened for writing ([None] when it opens), the contents of the
    files, and what was printed on each stream. *)

Inductive os_error :=
| IsADirectoryError   (* the target is an existing directory *)
| FileNotFoundError   (* the parent directory of the target is missing *)
| PermissionError     (* no permission to write the target *)
| OtherOSError.       (* any other failure: not caught by the program *)

Record world := {
  open_w : string → option os_error;
  files : gmap string string;
  stdout : list string;
  stderr : list string;
}.

Inductive outcome :=
| Returned
| Exited (status : Z)
| Propagated (e : os_error).

Definition print (text : string) (w : world) : world :=
  {| open_w := open_w w; files := files w;
     stdout := (stdout w ++ [text])%list; stderr := stderr w |}.

Definition print_stderr (text : string) (w : world) : world :=
  {| open_w := open_w w; files := files w;
     stdout := stdout w; stderr := (stderr w ++ [text])%list |}.

Definition write_file (path text : string) (w : world) : world :=
  {| open_w := open_w w; files := <[path := text]> (files w);
     stdout := stdout w; stderr := stderr w |}.

(** colorama's [Fore.RED] and [Style.BRIGHT]. *)
Definition esc : string := String (ascii_of_nat 27) "".
Definition Fore_RED : string := esc ++ "[31m".
Definition Style_BRIGHT : string := esc ++ "[1m".

(** The output stage of [generate_mermaid_text]: [if output_file: ... else:
    print(mermaid_text)].  A missing or empty [output_file] is falsy. *)
Definition emit (mermaid_text : string) (output_file : option string) (w : world)
    : outcome * world :=
  match output_file with
  | Some path =>
      if decide (path = "") then (Returned, print mermaid_text w)
      else
        match open_w w path with
        | None =>
            (Returned,
             print ("Mermaid notation has been output to " ++ path ++ ".")
               (write_file path mermaid_text w))
        | Some IsADirectoryError =>
            (Exited 2,
             print_stderr (Fore_RED ++ Style_BRIGHT ++ "[ERROR] Is a directory: " ++ path) w)
        | Some FileNotFoundError =>
            (Exited 3,
             print_stderr
               (Fore_RED ++ Style_BRIGHT ++ "[ERROR] Output directory not found: " ++ path) w)
        | Some PermissionError =>
            (Exited 4,
             print_stderr
               (Fore_RED ++ Style_BRIGHT ++ "[ERROR] Permission denied when writing to: " ++ path) w)
        | Some OtherOSError => (Propagated OtherOSError, w)
        end
  | None => (Returned, print mermaid_text w)
  end.

(** [generate_mermaid_text(edges, output_file, direction)] *)
Definition generate_mermaid_text (edges : list edge) (output_file : option string)
    (direction : string) (w : world) : outcome * world :=
  emit (mermaid_text edges direction) output_file w.

(** ** Template discovery *)

(** A directory tree: the names in a directory are those of its entries. *)
#[local] Unset Elimination Schemes.
Inductive fs_node :=
| File
| Dir (entries : list (string * fs_node)).
#[local] Set Elimination Schemes.

(** [fnmatch] for a pattern of literal characters, [*] and [?]. *)
Fixpoint fnmatch (pat name : string) {struct pat} : bool :=
  match pat with
  | "" => bool_decide (name = "")
  | String c pat' =>
      if Ascii.eqb c "*" then
        (fix star (name : string) : bool :=
           fnmatch pat' name ||
           match name with "" => false | String _ name' => star name' end) name
      else
        match name with
        | "" => false
        | String d name' => (Ascii.eqb c "?" || Ascii.eqb c d) && fnmatch pat' name'
        end
  end.

(** [target_dir.glob(pattern)] for a pattern of one component: the entries
    of the directory whose name matches, as paths relative to [target_dir];
    nothing when [target_dir] is not a directory. *)
Definition glob (pattern : string) (target_dir : fs_node) : list (list string) :=
  match target_dir with
  | Dir entries => (λ e, [e.1]) <$> filter (λ e, fnmatch pattern e.1 = true) entries
  | File => []
  end.

(** [find_cfn_templates(directory)], on the tree at [directory]. *)
Definition find_cfn_templates (target_dir : fs_node) : list (list string) :=
  (glob "*.yml" target_dir ++ glob "*.yaml" target_dir)%list.

(** * Specification-side definitions

    What the specification says, written without reference to how the code
    computes it; the theorems below compare the two. *)

(** ** Scanner *)

(** [import_value_in D v]: [v] is the value of a key [Fn::ImportValue]
    somewhere in [D], under any nesting of mappings and sequences. *)
Inductive import_value_in : value → value → Prop :=
| import_here items v :
    (target_key, v) ∈ items → import_value_in (VDict items) v
| import_in_dict items k x v :
    (k, x) ∈ items → import_value_in x v → import_value_in (VDict items) v
| import_in_list items x v :
    x ∈ items → import_value_in x v → import_value_in (VList items) v.

(** The same, as the list of those values. *)
Fixpoint import_values (D : value) : list value :=
  match D with
  | VDict items =>
      flat_map (λ '(k, x),
        (if decide (k = target_key) then [x] else []) ++ import_values x)%list items
  | VList items => flat_map import_values items
  | _ => []
  end.

Definition hashable (v : value) : bool :=
  match hash_key v with Some _ => true | None => false end.

(** The imports as the specification states them: a ScanResult is produced
    and its imports are exactly the values keyed by [Fn::ImportValue]. *)
Definition imports_as_stated (D : value) : Prop :=
  ∃ r, extract_exports_and_imports D = Ok r ∧
    (∀ v, import_value_in D v → ∃ a, hash_key v = Some a ∧ a ∈ imports r) ∧
    (∀ a, a ∈ imports r → ∃ v, import_value_in D v ∧ hash_key v = Some a).

(** The value at [Export.Name] of one output, when both keys are there. *)
Definition export_name (output : value) : option value :=
  match output with
  | VDict o =>
      match dict_get "Export" o with
      | Some (VDict e) => dict_get "Name" e
      | _ => None
      end
  | _ => None
  end.

(** The values at [Outputs.*.Export.Name]. *)
Definition export_names (D : value) : list value :=
  match D with
  | VDict items =>
      match dict_get "Outputs" items with
      | Some (VDict outs) => omap export_name (outs.*2)
      | _ => []
      end
  | _ => []
  end.

(** One output has the shape the scanner expects: a mapping whose [Export],
    when present, is a mapping whose [Name], when present and truthy, is a
    scalar. *)
Definition output_well_shaped (output : value) : bool :=
  match output with
  | VDict o =>
      match dict_get "Export" o with
      | None => true
      | Some (VDict e) =>
          match dict_get "Name" e with
          | None => true
          | Some n => negb (truthy n) || hashable n
          end
      | Some _ => false
      end
  | _ => false
  end.

(** The document is a mapping whose [Outputs], when present, is a mapping of
    well-shaped outputs. *)
Definition outputs_well_shaped (D : value) : bool :=
  match D with
  | VDict items =>
      match dict_get "Outputs" items with
      | None => true
      | Some (VDict outs) => forallb output_well_shaped (outs.*2)
      | Some _ => false
      end
  | _ => false
  end.

(** The exports as the specification states them: a ScanResult is produced
    and its exports are exactly the non-empty values at
    [Outputs.*.Export.Name]. *)
Definition exports_as_stated (D : value) : Prop :=
  ∃ r, extract_exports_and_imports D = Ok r ∧
    (∀ v, v ∈ export_names D → truthy v = true →
          ∃ a, hash_key v = Some a ∧ a ∈ exports r) ∧
    (∀ a, a ∈ exports r →
          ∃ v, v ∈ export_names D ∧ truthy v = true ∧ hash_key v = Some a).

(** The string scalars that are values anywhere in [D]. *)
Fixpoint string_scalars (D : value) : list string :=
  match D with
  | VStr s => [s]
  | VList items => flat_map string_scalars items
  | VDict items => flat_map (λ '(_, x), string_scalars x) items
  | _ => []
  end.

Fixpoint forall_chars (cs : Re.charset) (s : string) : bool :=
  match s with
  | "" => true
  | String a s' => cs a && forall_chars cs s'
  end.

(** A payload of characters from [cs] that the first [}}] closes: with one
    brace added, no [}}] occurs in it. *)
Definition payload_ok (cs : Re.charset) (p : string) : bool :=
  forall_chars cs p && negb (Str.contains "}}" (p ++ "}")).

(** [markers_of cs s ms]: [ms] are the non-overlapping markers
    [{{resolve:<payload>}}] of [s] from left to right, each the shortest one
    at its place, with payloads of characters from [cs]. *)
Inductive markers_of (cs : Re.charset) : string → list string → Prop :=
| markers_end : markers_of cs "" []
| markers_hit p rest ms :
    payload_ok cs p = true →
    markers_of cs rest ms →
    markers_of cs ("{{resolve:" ++ p ++ "}}" ++ rest) (("{{resolve:" ++ p ++ "}}") :: ms)
| markers_skip a s ms :
    (∀ p rest, payload_ok cs p = true → String a s ≠ "{{resolve:" ++ p ++ "}}" ++ rest) →
    markers_of cs s ms →
    markers_of cs (String a s) ms.

(** The set of dynamics the specification describes, for payloads of
    characters from [cs]. *)
Definition dynamics_spec (cs : Re.charset) (D : value) (S : gset atom) : Prop :=
  ∀ a, a ∈ S ↔ ∃ s ms m, s ∈ string_scalars D ∧ markers_of cs s ms ∧ m ∈ ms ∧ a = AStr m.

(** "Payload is any characters". *)
Definition any_char : Re.charset := λ _, true.

(** ** Renderer *)

Definition identifier (i : string) : bool :=
  negb (String.eqb i "") && forall_chars identifier_char i.

(** [unbraced s out]: [out] is [s] with every [${Identifier}] replaced by
    [$Identifier], from left to right. *)
Inductive unbraced : string → string → Prop :=
| unbraced_end : unbraced "" ""
| unbraced_placeholder i rest out :
    identifier i = true →
    unbraced rest out →
    unbraced ("${" ++ i ++ "}" ++ rest) ("$" ++ i ++ out)
| unbraced_copy a s out :
    (∀ i rest, identifier i = true → String a s ≠ "${" ++ i ++ "}" ++ rest) →
    unbraced s out →
    unbraced (String a s) (String a out).

(** Every [{] and [}] removed. *)
Fixpoint without_braces (s : string) : string :=
  match s with
  | "" => ""
  | String a s' =>
      if Ascii.eqb a "{" || Ascii.eqb a "}" then without_braces s'
      else String a (without_braces s')
  end.

(** Normalization as the specification words it. *)
Definition normalized (s out : string) : Prop :=
  ∃ mid, unbraced s mid ∧ out = without_braces mid.

(** The marker has the stricter form [{{resolve:<tag>:<payload>}}]: a known
    service tag and a payload of one line, not empty. *)
Definition strict_marker (imp tag payload : string) : Prop :=
  tag ∈ ["ssm"; "ssm-secure"; "secretsmanager"] ∧
  payload ≠ "" ∧ forall_chars Re.dot payload = true ∧
  imp = "{{resolve:" ++ tag ++ ":" ++ payload ++ "}}".

(** [generate_mermaid_text] with the fallback branch removed. *)
Definition dynamic_label_node_direct (imp : string) : string * string :=
  match Re.fullmatch DYN_NODE_PATTERN imp with
  | Some m => (Re.group m 1, normalize_dynamic_node (Re.group m 2))
  | None => ("dynamic", normalize_dynamic_node imp)
  end.

Definition edge_line_direct (e : edge) : string :=
  let '(src, dst, imp, typ) := e in
  let src_name := short_name src in
  if decide (typ = "dynamic") then
    let '(label, node) := dynamic_label_node_direct imp in
    "    " ++ src_name ++ "-->|" ++ label ++ "|" ++ node ++ "[(" ++ node ++ ")]"
  else
    let dst_name := short_name dst in
    "    " ++ src_name ++ "-->|" ++ imp ++ "|" ++ dst_name.

Definition generate_mermaid_text_direct (edges : list edge) (output_file : option string)
    (direction : string) (w : world) : outcome * world :=
  let mermaid_lines :=
    ["# CFn template dependency" ++ newline ++ newline ++ "```mermaid"; "graph " ++ direction] in
  let edge_lines := merge_sort String.le (edge_line_direct <$> edges) in
  let footer := "```" ++ newline in
  emit (Str.join newline (mermaid_lines ++ edge_lines ++ [footer])%list) output_file w.

(** ** Template discovery *)

(** Every file under a directory, at any depth, as a path relative to it. *)
Fixpoint files_under (d : fs_node) : list (list string) :=
  match d with
  | File => [[]]
  | Dir entries => flat_map (λ '(name, child), (name ::.) <$> files_under child) entries
  end.

Fixpoint ends_with (suffix s : string) : bool :=
  String.eqb s suffix || match s with "" => false | String _ s' => ends_with suffix s' end.

(** The extension of the file name is [.yml] or [.yaml]. *)
Definition is_template_path (p : list string) : bool :=
  match last p with
  | Some name => ends_with ".yml" name || ends_with ".yaml" name
  | None => false
  end.

(** What a recursive search for templates returns. *)
Definition templates_under (d : fs_node) : list (list string) :=
  filter (λ p, is_template_path p = true) (files_under d).

(** ** Direct scanners

    What each pattern recognises, as plain recursive functions on the text;
    they stand between the matcher and the specification. *)

(** The text before the first [}}] and the text after it, when only
    characters of [cs] come before it. *)
Fixpoint until_close (cs : Re.charset) (s : string) : option (string * string) :=
  match Str.strip_prefix "}}" s with
  | Some rest => Some ("", rest)
  | None =>
      match s with
      | String a s' =>
          if cs a then
            match until_close cs s' with
            | Some (p, rest) => Some (String a p, rest)
            | None => None
            end
          else None
      | "" => None
      end
  end.

(** The marker at the start of [s] and what follows it. *)
Definition marker_at (cs : Re.charset) (s : string) : option (string * string) :=
  match Str.strip_prefix "{{resolve:" s with
  | Some t =>
      match until_close cs t with
      | Some (p, rest) => Some ("{{resolve:" ++ p ++ "}}", rest)
      | None => None
      end
  | None => None
  end.

(** [s] without its final [}}], when all of it before is made of [cs]. *)
Fixpoint before_final_close (cs : Re.charset) (s : string) : option string :=
  if decide (s = "}}") then Some ""
  else
    match s with
    | String a s' => if cs a then String a <$> before_final_close cs s' else None
    | "" => None
    end.

(** [t] is [tag:payload}}] with a payload of one line, not empty. *)
Definition tagged_payload (tag t : string) : option (string * string) :=
  match Str.strip_prefix tag t with
  | Some s1 =>
      match Str.strip_prefix ":" s1 with
      | Some (String a s2) =>
          if Re.dot a then (λ p, (tag, String a p)) <$> before_final_close Re.dot s2
          else None
      | _ => None
      end
  | None => None
  end.

(** The service tag and the payload of a marker of the stricter form. *)
Definition strict_marker_at (imp : string) : option (string * string) :=
  match Str.strip_prefix "{{resolve:" imp with
  | Some t =>
      Re.orelse (tagged_payload "ssm" t)
        (Re.orelse (tagged_payload "ssm-secure" t) (tagged_payload "secretsmanager" t))
  | None => None
  end.

(** The longest prefix of characters of [cs], and the rest. *)
Fixpoint span (cs : Re.charset) (s : string) : string * string :=
  match s with
  | String a s' =>
      if cs a then let '(i, r) := span cs s' in (String a i, r) else ("", s)
  | "" => ("", "")
  end.

(** The identifier of the placeholder [${identifier}] at the start of [s],
    and what follows the placeholder. *)
Definition placeholder_at (s : string) : option (string * string) :=
  match Str.strip_prefix "${" s with
  | Some t =>
      let '(i, r) := span identifier_char t in
      if decide (i = "") then None
      else match Str.strip_prefix "}" r with
           | Some rest => Some (i, rest)
           | None => None
           end
  | None => None
  end.

(** ** Auxiliary notions and example inputs

    Notions the statements below use, and the inputs of the examples. *)

(** The strings [find_dynamic_references] adds: every match of the pattern in
    every string scalar. *)
Definition found_markers (D : value) : list string :=
  flat_map (Re.findall DYNAMIC_REF_PATTERN) (string_scalars D).

(** A document of the usual kind: an import whose name is built with
    [Fn::Sub], as [!ImportValue] with [!Sub] decodes. *)
Definition nested_import_doc : value :=
  VDict [("Resources", VDict [("Bucket", VDict [
    ("Type", VStr "AWS::S3::Bucket");
    ("Properties", VDict [("BucketName",
       VDict [("Fn::ImportValue", VDict [("Fn::Sub", VStr "${Stack}-Name")])])])])])].

Definition plain_import_doc : value :=
  VDict [("Resources", VDict [("Bucket", VDict [
    ("Type", VStr "AWS::S3::Bucket");
    ("Properties", VDict [
       ("BucketName", VDict [("Fn::ImportValue", VStr "MyExport")]);
       ("Tags", VList [VDict [("Fn::ImportValue", VStr "TagExport1")];
                       VDict [("Fn::ImportValue", VStr "MyExport")]])])])])].

(** An output section as commonly written: the export name is built with
    [Fn::Sub]. *)
Definition sub_export_doc : value :=
  VDict [("Outputs", VDict [("VpcId", VDict [
    ("Value", VDict [("Ref", VStr "Vpc")]);
    ("Export", VDict [("Name", VDict [("Fn::Sub", VStr "${AWS::StackName}-VpcId")])])])])].

Definition plain_export_doc : value :=
  VDict [
    ("Outputs", VDict [
       ("ExportedValue", VDict [("Value", VStr "v"); ("Export", VDict [("Name", VStr "MyExport")])]);
       ("Internal", VDict [("Value", VStr "w")]);
       ("Unnamed", VDict [("Export", VDict [("Name", VStr "")])])]);
    ("Resources", VDict [])].

Definition truthy_atoms (s : gset atom) : Prop :=
  ∀ a, a ∈ s → ∃ v, truthy v = true ∧ hash_key v = Some a.

(** The invariant as the specification states it, for one set. *)
Definition only_nonempty_strings (s : gset atom) : Prop :=
  ∀ a, a ∈ s → ∃ t, a = AStr t ∧ t ≠ "".

Definition odd_names_doc : value :=
  VDict [
    ("Outputs", VDict [("Port", VDict [
       ("Value", VInt 5432); ("Export", VDict [("Name", VInt 5432)])])]);
    ("Resources", VDict [("Queue", VDict [
       ("Properties", VDict [("QueueName", VDict [("Fn::ImportValue", VStr "")])])])])].

Definition dynamic_doc : value :=
  VDict [("Resources", VDict [("MyRes", VDict [
    ("Type", VStr "AWS::S3::Bucket");
    ("Properties", VDict [
       ("BucketName", VStr "{{resolve:ssm-secure:MyParam:1}}");
       ("Tags", VList [VDict [
          ("Key", VStr "foo");
          ("Value", VStr "a-{{resolve:ssm:TagParam:latest}}-{{resolve:ssm:Other}}")]])])])])].

Definition multiline_doc : value :=
  VDict [("Resources", VDict [("Param", VDict [
    ("Properties", VDict [
       ("Value", VStr ("{{resolve:ssm:/app/key" ++ newline ++ "}}"))])])])].

Definition two_edges : list edge :=
  [("stacks/app.yaml", "stacks/network.yaml", "VpcId", "import");
   ("stacks/app.yaml", "{{resolve:ssm:/app/key}}", "{{resolve:ssm:/app/key}}", "dynamic")].

Definition two_edges_swapped : list edge :=
  [("stacks/app.yaml", "{{resolve:ssm:/app/key}}", "{{resolve:ssm:/app/key}}", "dynamic");
   ("stacks/app.yaml", "stacks/network.yaml", "VpcId", "import")].

(** The first line and the last one of a diagram. *)
Definition diagram_header : string :=
  "# CFn template dependency" ++ newline ++ newline ++ "```mermaid".

Definition diagram_footer : string := "```" ++ newline.

Definition graph_line (direction : string) : string := "graph " ++ direction.

Definition error_text (what path : string) : string :=
  Fore_RED ++ Style_BRIGHT ++ "[ERROR] " ++ what ++ path.

(** A world in which [out] is a directory, the parent of [missing/out.md]
    does not exist and [locked.md] may not be written. *)
Definition failing_world : world :=
  {| open_w := λ path,
       if decide (path = "out") then Some IsADirectoryError
       else if decide (path = "missing/out.md") then Some FileNotFoundError
       else if decide (path = "locked.md") then Some PermissionError
       else None;
     files := ∅; stdout := []; stderr := [] |}.

Definition nested_tree : fs_node :=
  Dir [("a.yaml", File); ("notes.txt", File);
       ("sub", Dir [("b.yaml", File); ("deep", Dir [("c.yml", File)])])].

(** The last template, in processing order, that exports [name]. *)
Fixpoint last_exporter (template_info : list (string * ScanResult (list string)))
    (name : string) : option string :=
  match template_info with
  | [] => None
  | (path, info) :: rest =>
      match last_exporter rest name with
      | Some p => Some p
      | None => if decide (name ∈ exports info) then Some path else None
      end
  end.

(** The target of an import edge: the producer, or the sentinel. *)
Definition import_target (nodes : gmap string string) (imp : string) : string :=
  default "(unknown)" (nodes !! imp).

Definition import_edge (nodes : gmap string string) (path imp : string) : edge :=
  (path, import_target nodes imp, imp, "import").

(** The test that picks the import edges of one document for one name. *)
Definition is_import_of (path imp : string) (e : edge) : Prop :=
  edge_src e = path ∧ edge_label e = imp ∧ edge_kind e = "import".

#[global] Instance is_import_of_dec path imp e : Decision (is_import_of path imp e).
Proof. unfold is_import_of. apply _. Defined.

Definition t1_info : ScanResult (list string) :=
  {| exports := ["Export1"]; imports := []; dynamics := [] |}.

Definition t2_info : ScanResult (list string) :=
  {| exports := ["Export2"]; imports := ["Export1"; "Missing"];
     dynamics := ["{{resolve:ssm:/k}}"] |}.

Definition t3_info : ScanResult (list string) :=
  {| exports := ["Export1"]; imports := ["Export2"]; dynamics := [] |}.

(** Two templates export [Export1]; [t3.yaml] is processed last. *)
Definition three_templates : list (string * ScanResult (list string)) :=
  [("t1.yaml", t1_info); ("t2.yaml", t2_info); ("t3.yaml", t3_info)].

(** *** Inputs of the repository's tests ([test/Python/test_main.py]) *)

Definition test_find_imports_obj : value :=
  VDict [
    ("Fn::ImportValue", VStr "MyExport");
    ("Resources", VDict [("MyRes", VDict [
       ("Type", VStr "AWS::S3::Bucket");
       ("Properties", VDict [("BucketName", VDict [("Fn::ImportValue", VStr "MyExport")])])])])].

Definition test_basic_doc : value :=
  VDict [
    ("Outputs", VDict [("ExportedValue", VDict [("Export", VDict [("Name", VStr "MyExport")])])]);
    ("Resources", VDict [("MyRes", VDict [
       ("Type", VStr "AWS::S3::Bucket");
       ("Properties", VDict [("BucketName", VDict [("Fn::ImportValue", VStr "MyExport")])])])])].

Definition test_no_outputs_doc : value :=
  VDict [("Resources", VDict [("MyRes", VDict [
    ("Type", VStr "AWS::S3::Bucket"); ("Properties", VDict [])])])].

Definition test_template_info : list (string * ScanResult (list string)) :=
  [("template1.yaml", {| exports := ["Export1"]; imports := []; dynamics := [] |});
   ("template2.yaml", {| exports := ["Export2"]; imports := ["Export1"]; dynamics := [] |});
   ("template3.yaml", {| exports := []; imports := ["Export2"]; dynamics := [] |})].

Definition test_dynamic_edges : list edge :=
  [("dynamic.yaml", "{{resolve:ssm-secure:MyParam:1}}",
    "{{resolve:ssm-secure:MyParam:1}}", "dynamic");
   ("dynamic.yaml", "{{resolve:ssm:TagParam:latest}}",
    "{{resolve:ssm:TagParam:latest}}", "dynamic")].

Definition test_tree : fs_node :=
  Dir [("subdir", Dir []); ("a.yaml", File)].

(** ** Self-reference checker *)

(** colorama's [Fore.YELLOW]. *)
Definition Fore_YELLOW : string := esc ++ "[33m".

(** The text printed for the template [path] importing its own export [imp]. *)
Definition self_reference_warning (path imp : string) : string :=
  Fore_YELLOW ++ Style_BRIGHT ++ "[WARNING] " ++ path
  ++ " references its own Cfn template's Export(" ++ imp
  ++ ") using Fn::ImportValue or !ImportValue.".

(** [check_self_reference(template_info)]: prints on the diagnostic stream. *)
Definition check_self_reference (template_info : list (string * ScanResult (list string)))
    (w : world) : world :=
  foldl (λ w '(path, info),
    foldl (λ w imp,
      if decide (imp ∈ exports info) then print_stderr (self_reference_warning path imp) w
      else w) w (imports info)) w template_info.

(** *** Notions used by the further properties *)

(** The self-references of a template: the names of its imports that are
    among its exports, in the order of the imports. *)
Definition self_references (info : ScanResult (list string)) : list string :=
  filter (λ imp, imp ∈ exports info) (imports info).

(** The same documents, each collection possibly iterated in another order. *)
Definition same_collections (a b : string * ScanResult (list string)) : Prop :=
  a.1 = b.1 ∧ exports a.2 ≡ₚ exports b.2 ∧ imports a.2 ≡ₚ imports b.2
  ∧ dynamics a.2 ≡ₚ dynamics b.2.

(** No name is exported by two templates. *)
Definition exports_unique (template_info : list (string * ScanResult (list string))) : Prop :=
  ∀ d1 d2 name,
    d1 ∈ template_info → d2 ∈ template_info →
    name ∈ exports d1.2 → name ∈ exports d2.2 → d1.1 = d2.1.

(** Lines, each ended by a line feed. *)
Definition file_name (n : string) : bool :=
  negb (String.eqb n "") && negb (String.eqb n ".")
  && forall_chars (λ c, negb (Ascii.eqb c "/")) n.

Definition not_brace (c : ascii) : bool := negb (Ascii.eqb c "{" || Ascii.eqb c "}").

Definition keyed_marker_doc : value :=
  VDict [("{{resolve:ssm:InAKey}}", VStr "before {{resolve:ssm:/db/host}} after")].

(** The templates of [three_templates] with the collections of [t2.yaml]
    iterated in another order. *)
Definition three_templates_reordered : list (string * ScanResult (list string)) :=
  [("t1.yaml", t1_info);
   ("t2.yaml", {| exports := ["Export2"]; imports := ["Missing"; "Export1"];
                  dynamics := ["{{resolve:ssm:/k}}"] |});
   ("t3.yaml", t3_info)].

(** Two templates, each exporting a name of its own and importing the
    other's, and the same two in the other order. *)
Definition two_templates : list (string * ScanResult (list string)) :=
  [("a.yaml", {| exports := ["A"]; imports := ["B"]; dynamics := [] |});
   ("b.yaml", {| exports := ["B"]; imports := ["A"]; dynamics := [] |})].

Definition two_templates_swapped : list (string * ScanResult (list string)) :=
  [("b.yaml", {| exports := ["B"]; imports := ["A"]; dynamics := [] |});
   ("a.yaml", {| exports := ["A"]; imports := ["B"]; dynamics := [] |})].

(** A template that imports its own export. *)
Definition self_importing : list (string * ScanResult (list string)) :=
  [("stacks/net.yaml", {| exports := ["VpcId"]; imports := ["VpcId"]; dynamics := [] |})].

(** A pattern of literal characters only. *)
Definition literal_pattern (pat : string) : bool :=
  forall_chars (λ c, negb (Ascii.eqb c "*" || Ascii.eqb c "?")) pat.

(** A directory that holds templates of both extensions, a directory whose
    name looks like a template, and a file that is no template. *)
Definition mixed_directory : fs_node :=
  Dir [("b.yaml", File); ("a.yml", File); ("notes.txt", File);
       ("old.yml", Dir [("inner.yml", File)]); (".yml", File)].

(** The last three statements of [main], from the collected [template_info]
    on: [_, edges = build_dependency_graph(template_info)],
    [check_self_reference(template_info)] and
    [generate_mermaid_text(edges, args.output_file, direction=args.direction)]. *)
Definition main_from_template_info (template_info : list (string * ScanResult (list string)))
    (output_file : option string) (direction : string) (w : world) : outcome * world :=
  let '(_, edges) := build_dependency_graph template_info in
  let w := check_self_reference template_info w in
  generate_mermaid_text edges output_file direction w.

(** The warnings of a run, in order. *)
Definition self_reference_warnings (template_info : list (string * ScanResult (list string)))
    : list string :=
  flat_map (λ '(path, info), self_reference_warning path <$> self_references info) template_info.

(** * Properties *)

(** ** Strings *)

Lemma str_app_nil_l (s : string) : "" ++ s = s.
Proof. reflexivity. Qed.

Lemma str_app_cons (a : ascii) (s t : string) : String a s ++ t = String a (s ++ t).
Proof. reflexivity. Qed.

Lemma str_app_nil_r (s : string) : s ++ "" = s.
Proof. induction s; rewrite ?str_app_cons; [reflexivity | congruence]. Qed.

Lemma str_app_assoc (a b c : string) : (a ++ b) ++ c = a ++ (b ++ c).
Proof. induction a; rewrite ?str_app_cons, ?str_app_nil_l; [reflexivity | congruence]. Qed.

Lemma str_length_app (a b : string) :
  String.length (a ++ b) = String.length a + String.length b.
Proof. induction a; rewrite ?str_app_cons, ?str_app_nil_l; simpl; [reflexivity | congruence]. Qed.

(** Pushes appends through the constructors of literal prefixes. *)
Ltac str_norm := repeat (rewrite ?str_app_cons, ?str_app_nil_l in *).

Lemma strip_prefix_Some p s r : Str.strip_prefix p s = Some r ↔ s = p ++ r.
Proof.
  revert s; induction p as [|a p IH]; intros s; simpl.
  - rewrite str_app_nil_l. split; congruence.
  - destruct s as [|b s]; [split; discriminate|].
    destruct (Ascii.eqb_spec a b) as [->|Hne].
    + rewrite IH, str_app_cons. split; congruence.
    + rewrite str_app_cons. split; [discriminate|]. intros [= -> _]. congruence.
Qed.

Lemma strip_prefix_app p r : Str.strip_prefix p (p ++ r) = Some r.
Proof. by apply strip_prefix_Some. Qed.

Lemma strip_prefix_None p s :
  Str.strip_prefix p s = None ↔ ∀ r, s ≠ p ++ r.
Proof.
  split.
  - intros H r ->. by rewrite strip_prefix_app in H.
  - intros H. destruct (Str.strip_prefix p s) as [r|] eqn:E; [|done].
    apply strip_prefix_Some in E. by destruct (H r).
Qed.

(** ** The matcher on the patterns of the program *)

Lemma orelse_fmap {A B} (f : A → B) (x y : option A) :
  Re.orelse (f <$> x) (f <$> y) = f <$> Re.orelse x y.
Proof. by destruct x, y. Qed.

Lemma rep_ext {R} greedy cs s (k1 k2 : string → string → option R) :
  (∀ m rest, k1 m rest = k2 m rest) → Re.rep greedy cs s k1 = Re.rep greedy cs s k2.
Proof.
  revert k1 k2; induction s as [|a s IH]; intros k1 k2 Hk; simpl.
  - by rewrite Hk.
  - rewrite Hk. destruct (cs a); [|done].
    by rewrite (IH _ (λ m rest, k2 (String a m) rest)).
Qed.

(** A lazy repetition before a closing [}}], when what follows always
    matches: the repetition stops at the first [}}]. *)
Lemma rep_lazy_until_close {R} cs t (F : string → string → R) :
  Re.rep false cs t
    (λ m s1, match Str.strip_prefix "}}" s1 with
             | Some rest => Some (F m rest)
             | None => None
             end)
  = (λ x, F x.1 x.2) <$> until_close cs t.
Proof.
  revert F; induction t as [|a t IH]; intros F; [done|].
  cbn [Re.rep until_close].
  destruct (Str.strip_prefix "}}" (String a t)) as [rest|] eqn:E; [done|].
  cbn [Re.orelse]. destruct (cs a); [|done].
  rewrite (IH (λ m rest, F (String a m) rest)).
  by destruct (until_close cs t) as [[p rest]|].
Qed.

(** The same when the match must end the text: the repetition runs to the
    final [}}]. *)
Lemma rep_lazy_final_close {R} cs t (F : string → R) :
  Re.rep false cs t
    (λ m s1, match Str.strip_prefix "}}" s1 with
             | Some rest => if decide (rest = "") then Some (F m) else None
             | None => None
             end)
  = F <$> before_final_close cs t.
Proof.
  revert F; induction t as [|a t IH]; intros F; [done|].
  cbn [Re.rep before_final_close].
  destruct (decide (String a t = "}}")) as [->|Hne]; [done|].
  assert (match Str.strip_prefix "}}" (String a t) with
          | Some rest => if decide (rest = "") then Some (F "") else None
          | None => None
          end = None) as ->.
  { destruct (Str.strip_prefix "}}" (String a t)) as [rest|] eqn:E; [|done].
    apply strip_prefix_Some in E. case_decide; [|done].
    subst rest. by rewrite str_app_nil_r in E. }
  cbn [Re.orelse]. destruct (cs a); [|done].
  rewrite (IH (λ m, F (String a m))).
  by destruct (before_final_close cs t).
Qed.

(** A greedy repetition before a closing [}] that is not in the set: the
    repetition takes the whole run. *)
Lemma rep_greedy_span {R} cs t (F : string → string → R) :
  cs "}"%char = false →
  Re.rep true cs t
    (λ m s1, match Str.strip_prefix "}" s1 with
             | Some rest => Some (F m rest)
             | None => None
             end)
  = match Str.strip_prefix "}" (span cs t).2 with
    | Some rest => Some (F (span cs t).1 rest)
    | None => None
    end.
Proof.
  intros Hcs. revert F; induction t as [|a t IH]; intros F; [done|].
  cbn [Re.rep span]. destruct (cs a) eqn:Ha.
  - rewrite (IH (λ m rest, F (String a m) rest)).
    destruct (span cs t) as [i r]; cbn [fst snd].
    destruct (Str.strip_prefix "}" r); [done|]. cbn [Re.orelse].
    cbn [Str.strip_prefix]. destruct (Ascii.eqb_spec "}" a) as [<-|]; [congruence|done].
  - done.
Qed.

Lemma match_here_dynamic s :
  Re.match_here DYNAMIC_REF_PATTERN s = (λ x, (x.1, x.2, ∅)) <$> marker_at Re.dot s.
Proof.
  unfold Re.match_here, DYNAMIC_REF_PATTERN, marker_at. cbn [Re.run].
  destruct (Str.strip_prefix "{{resolve:" s) as [t|]; [|done].
  rewrite (rep_lazy_until_close Re.dot t (λ m rest, ("{{resolve:" ++ m ++ "}}", rest, ∅))).
  by destruct (until_close Re.dot t) as [[p rest]|].
Qed.

Lemma contains_cons needle a s :
  Str.contains needle (String a s) =
    match Str.strip_prefix needle (String a s) with
    | Some _ => true
    | None => Str.contains needle s
    end.
Proof. reflexivity. Qed.

Lemma until_close_spec cs t p rest :
  until_close cs t = Some (p, rest) ↔ payload_ok cs p = true ∧ t = p ++ "}}" ++ rest.
Proof.
  unfold payload_ok. split.
  - revert p; induction t as [|a t IH]; intros p; cbn [until_close].
    + discriminate.
    + destruct (Str.strip_prefix "}}" (String a t)) as [r|] eqn:E.
      * intros [= <- <-]. apply strip_prefix_Some in E. done.
      * destruct (cs a) eqn:Ha; [|done].
        destruct (until_close cs t) as [[p' r']|]; [|done].
        intros [= <- <-]. destruct (IH p' eq_refl) as [[Hp Hc]%andb_prop ->].
        split; [|done]. cbn [forall_chars]. rewrite Ha, Hp. cbn [andb].
        rewrite str_app_cons, contains_cons.
        destruct (Str.strip_prefix "}}" (String a (p' ++ "}"))) as [x|] eqn:E'; [|done].
        exfalso. apply strip_prefix_Some in E'. rewrite strip_prefix_None in E.
        str_norm. injection E' as -> E'.
        destruct p' as [|b p']; str_norm; [|injection E' as -> _]; by eapply E.
  - intros [[Hp Hc]%andb_prop ->]. revert Hp Hc.
    induction p as [|a p IH]; intros Hp Hc; [done|].
    rewrite str_app_cons in Hc. rewrite contains_cons in Hc.
    destruct (Str.strip_prefix "}}" (String a (p ++ "}"))) as [x|] eqn:E'; [done|].
    cbn [forall_chars] in Hp. apply andb_prop in Hp as [Ha Hp].
    rewrite str_app_cons. cbn [until_close].
    destruct (Str.strip_prefix "}}" (String a (p ++ "}}" ++ rest))) as [x|] eqn:E.
    + exfalso. apply strip_prefix_Some in E. rewrite strip_prefix_None in E'.
      str_norm. injection E as -> E.
      destruct p as [|b p]; str_norm; [|injection E as -> _]; by eapply E'.
    + rewrite Ha, (IH Hp Hc). done.
Qed.

Lemma findall_from_skip r m rest :
  Re.findall_from r (m ++ rest) (String.length m) = Re.findall_from r rest 0.
Proof. induction m as [|a m IH]; [done|]. by rewrite str_app_cons. Qed.

Lemma marker_at_spec cs s m rest :
  marker_at cs s = Some (m, rest) ↔
  ∃ p, payload_ok cs p = true ∧ m = "{{resolve:" ++ p ++ "}}" ∧ s = m ++ rest.
Proof.
  unfold marker_at. split.
  - destruct (Str.strip_prefix "{{resolve:" s) as [t|] eqn:E; [|done].
    destruct (until_close cs t) as [[p r]|] eqn:E'; [|done].
    intros [= <- <-]. exists p. apply until_close_spec in E' as [Hp ->].
    apply strip_prefix_Some in E as ->. by rewrite !str_app_assoc.
  - intros (p & Hp & -> & ->). rewrite !str_app_assoc, strip_prefix_app.
    by rewrite (proj2 (until_close_spec cs _ p rest)).
Qed.

Lemma marker_at_None cs s :
  marker_at cs s = None →
  ∀ p rest, payload_ok cs p = true → s ≠ "{{resolve:" ++ p ++ "}}" ++ rest.
Proof.
  intros E p rest Hp ->.
  assert (marker_at cs ("{{resolve:" ++ p ++ "}}" ++ rest) = Some ("{{resolve:" ++ p ++ "}}", rest)) as E'.
  { apply marker_at_spec. exists p. by rewrite !str_app_assoc. }
  congruence.
Qed.

Lemma findall_from_hit r m rest x g :
  m ≠ "" → Re.match_here r (m ++ rest) = Some (m, x, g) →
  Re.findall_from r (m ++ rest) 0 = m :: Re.findall_from r rest 0.
Proof.
  intros Hm E. destruct m as [|b m]; [done|].
  rewrite str_app_cons in *. cbn [Re.findall_from]. rewrite E.
  cbn [String.length]. by rewrite Nat.sub_1_r, Nat.pred_succ, findall_from_skip.
Qed.

Lemma findall_from_miss r a s :
  Re.match_here r (String a s) = None →
  Re.findall_from r (String a s) 0 = Re.findall_from r s 0.
Proof. intros E. cbn [Re.findall_from]. by rewrite E. Qed.

Lemma findall_markers_of_aux n s :
  (String.length s ≤ n)%nat → markers_of Re.dot s (Re.findall DYNAMIC_REF_PATTERN s).
Proof.
  unfold Re.findall. revert s; induction n as [|n IH]; intros s Hn.
  - destruct s; [|simpl in Hn; lia]. cbn. constructor.
  - destruct (marker_at Re.dot s) as [[m rest]|] eqn:E.
    + pose proof E as (p & Hp & -> & ->)%marker_at_spec.
      erewrite findall_from_hit; [|done|by rewrite match_here_dynamic, E].
      rewrite !str_app_assoc. apply (markers_hit Re.dot p rest); [done|].
      apply IH. rewrite !str_length_app in Hn. simpl in Hn. lia.
    + destruct s as [|a s]; [cbn; constructor|].
      rewrite findall_from_miss by (by rewrite match_here_dynamic, E).
      apply markers_skip; [by apply marker_at_None|].
      apply IH. simpl in Hn. lia.
Qed.

Lemma findall_markers_of s : markers_of Re.dot s (Re.findall DYNAMIC_REF_PATTERN s).
Proof. by apply (findall_markers_of_aux (String.length s)). Qed.

Lemma markers_of_functional cs s ms1 ms2 :
  markers_of cs s ms1 → markers_of cs s ms2 → ms1 = ms2.
Proof.
  intros H1; revert ms2; induction H1 as [|p rest ms Hp H1 IH|a s ms Hno H1 IH];
    intros ms2 H2.
  - inversion H2 as [|p' rest' ms' Hp' H' E|]. done.
  - inversion H2 as [|p' rest' ms' Hp' H' E|a s ms' Hno' H' E].
    + rewrite !str_app_nil_l in E.
      assert (until_close cs (p ++ "}}" ++ rest) = Some (p, rest)) as U1
        by by apply until_close_spec.
      assert (until_close cs (p' ++ "}}" ++ rest') = Some (p', rest')) as U2
        by by apply until_close_spec.
      rewrite <-E, U2 in U1. injection U1 as -> ->. f_equal. by apply IH.
    + exfalso. by eapply Hno'.
  - inversion H2 as [|p' rest' ms' Hp' H' E|a' s' ms' Hno' H' E]; subst.
    + exfalso. by eapply Hno.
    + by apply IH.
Qed.

(** ** Induction on decoded documents *)

Lemma value_ind (P : value → Prop) :
  P VNone → (∀ b, P (VBool b)) → (∀ n, P (VInt n)) → (∀ f, P (VFloat f)) →
  (∀ s, P (VStr s)) →
  (∀ items, Forall P items → P (VList items)) →
  (∀ items, Forall (λ kv, P kv.2) items → P (VDict items)) →
  ∀ v, P v.
Proof.
  intros HNone HBool HInt HFloat HStr HList HDict.
  fix IH 1. intros [ |b|n|f|s|items|items];
    [exact HNone|apply HBool|apply HInt|apply HFloat|apply HStr|..].
  - apply HList. induction items as [|x items IHl]; constructor; [apply IH|exact IHl].
  - apply HDict. induction items as [|[k x] items IHl]; constructor; [apply IH|exact IHl].
Qed.

(** ** Dynamic references *)

Lemma foldl_add_strings (ms : list string) (acc : gset atom) :
  foldl (λ dynamics m, {[AStr m]} ∪ dynamics) acc ms = acc ∪ list_to_set (AStr <$> ms).
Proof.
  revert acc; induction ms as [|m ms IH]; intros acc; simpl.
  - set_solver.
  - rewrite IH. set_solver.
Qed.

Lemma find_dynamic_references_spec D acc :
  find_dynamic_references D acc = acc ∪ list_to_set (AStr <$> found_markers D).
Proof.
  unfold found_markers. revert acc.
  induction D as [ | | | |s|items IH|items IH] using value_ind; intros acc;
    cbn [find_dynamic_references string_scalars flat_map]; try set_solver.
  - by rewrite foldl_add_strings, List.app_nil_r.
  - revert acc; induction IH as [|x items Hx _ IHl]; intros acc; simpl; [set_solver|].
    rewrite IHl, Hx, flat_map_app, fmap_app, list_to_set_app_L. set_solver.
  - revert acc; induction IH as [|[k x] items Hx _ IHl]; intros acc; simpl; [set_solver|].
    rewrite IHl. simpl in Hx. rewrite Hx, flat_map_app, fmap_app, list_to_set_app_L. set_solver.
Qed.

Lemma found_markers_spec D m :
  m ∈ found_markers D ↔ ∃ s ms, s ∈ string_scalars D ∧ markers_of Re.dot s ms ∧ m ∈ ms.
Proof.
  unfold found_markers. rewrite list_elem_of_In, in_flat_map. split.
  - intros (s & Hs & Hm). exists s, (Re.findall DYNAMIC_REF_PATTERN s).
    rewrite !list_elem_of_In. eauto using findall_markers_of.
  - intros (s & ms & Hs & Hms & Hm). exists s. rewrite <-!list_elem_of_In.
    by rewrite (markers_of_functional _ _ _ _ (findall_markers_of s) Hms).
Qed.

Lemma find_dynamic_references_markers D :
  dynamics_spec Re.dot D (find_dynamic_references D ∅).
Proof.
  intros a. rewrite find_dynamic_references_spec. split.
  - intros [?%elem_of_empty|Ha]%elem_of_union; [done|].
    apply elem_of_list_to_set, list_elem_of_fmap in Ha as (m & -> & Hm).
    apply found_markers_spec in Hm as (s & ms & ?). exists s, ms, m. naive_solver.
  - intros (s & ms & m & Hs & Hms & Hm & ->).
    apply elem_of_union_r, elem_of_list_to_set, list_elem_of_fmap.
    exists m. split; [done|]. apply found_markers_spec. eauto.
Qed.

Lemma extract_dynamics D r :
  extract_exports_and_imports D = Ok r → dynamics r = find_dynamic_references D ∅.
Proof.
  unfold extract_exports_and_imports.
  destruct (scan_exports D); [|done]. destruct (find_imports D ∅); [|done].
  by intros [= <-].
Qed.

(** ** Imports *)

Lemma import_values_spec D v : v ∈ import_values D ↔ import_value_in D v.
Proof.
  split.
  - revert v. induction D as [ | | | | |items IH|items IH] using value_ind; intros v;
      cbn [import_values]; try by intros ?%elem_of_nil.
    + rewrite list_elem_of_In, in_flat_map. intros (x & Hx%list_elem_of_In & Hv%list_elem_of_In).
      rewrite Forall_forall in IH. eapply import_in_list; eauto.
    + rewrite list_elem_of_In, in_flat_map.
      intros ([k x] & Hx%list_elem_of_In & Hv%list_elem_of_In).
      rewrite Forall_forall in IH. apply elem_of_app in Hv as [Hv|Hv].
      * case_decide; [|by apply elem_of_nil in Hv].
        apply list_elem_of_singleton in Hv as ->. subst k. by apply import_here.
      * eapply import_in_dict; [done|]. by apply (IH (k, x)).
  - induction 1 as [items v Hv|items k x v Hx _ IH|items x v Hx _ IH]; cbn [import_values];
      rewrite list_elem_of_In, in_flat_map.
    + exists (target_key, v). rewrite <-!list_elem_of_In. split; [done|].
      rewrite decide_True by done. set_solver.
    + exists (k, x). rewrite <-!list_elem_of_In. split; [done|]. set_solver.
    + exists x. by rewrite <-!list_elem_of_In.
Qed.

Lemma import_values_hashable D :
  forallb hashable (import_values D) = true ↔
  ∀ v, import_value_in D v → ∃ a, hash_key v = Some a.
Proof.
  rewrite forallb_forall. split.
  - intros H v Hv%import_values_spec%list_elem_of_In. specialize (H v Hv).
    unfold hashable in H. destruct (hash_key v); [eauto|done].
  - intros H v Hv%list_elem_of_In%import_values_spec.
    destruct (H v Hv) as [a Ha]. unfold hashable. by rewrite Ha.
Qed.

Lemma set_add_hashable v s :
  hashable v = true →
  set_add v s = Ok (s ∪ list_to_set (omap hash_key [v])).
Proof.
  unfold hashable, set_add. cbn [omap list_omap]. destruct (hash_key v); [|done].
  intros _. f_equal. set_solver.
Qed.

Lemma find_imports_ok D acc :
  forallb hashable (import_values D) = true →
  find_imports D acc = Ok (acc ∪ list_to_set (omap hash_key (import_values D))).
Proof.
  revert acc. induction D as [ | | | | |items IH|items IH] using value_ind; intros acc;
    cbn [find_imports import_values]; try (intros _; f_equal; set_solver).
  - revert acc; induction IH as [|x items Hx _ IHl]; intros acc; cbn [flat_map for_each].
    { intros _. f_equal. set_solver. }
    rewrite forallb_app. intros [H1 H2]%andb_prop.
    rewrite Hx by done. cbn [mbind result_bind].
    change (for_each _ items ?s) with (find_imports (VList items) s) in *.
    cbn [find_imports] in *. rewrite IHl by done.
    f_equal. rewrite omap_app, list_to_set_app_L. set_solver.
  - revert acc; induction IH as [|[k x] items Hx _ IHl]; intros acc; cbn [flat_map for_each].
    { intros _. f_equal. set_solver. }
    rewrite !forallb_app. intros [[H1 H2]%andb_prop H3]%andb_prop.
    cbn [snd] in Hx.
    assert ((if decide (k = target_key) then set_add x acc else Ok acc)
            = Ok (acc ∪ list_to_set (omap hash_key (if decide (k = target_key) then [x] else []))))
      as ->.
    { case_decide; [|f_equal; set_solver].
      apply set_add_hashable. simpl in H1. by apply andb_prop in H1 as [? _]. }
    cbn [mbind result_bind]. rewrite Hx by done. cbn [mbind result_bind].
    rewrite IHl by done.
    f_equal. rewrite !omap_app, !list_to_set_app_L. set_solver.
Qed.

Lemma find_imports_raise D acc :
  forallb hashable (import_values D) = false →
  find_imports D acc = Raise TypeError.
Proof.
  revert acc. induction D as [ | | | | |items IH|items IH] using value_ind; intros acc;
    cbn [find_imports import_values]; try done.
  - revert acc; induction IH as [|x items Hx _ IHl]; intros acc; cbn [flat_map for_each]; [done|].
    rewrite forallb_app. intros H.
    destruct (forallb hashable (import_values x)) eqn:E1.
    + rewrite find_imports_ok by done. cbn [mbind result_bind]. by apply IHl.
    + by rewrite Hx.
  - revert acc; induction IH as [|[k x] items Hx _ IHl]; intros acc; cbn [flat_map for_each]; [done|].
    rewrite !forallb_app. intros H. cbn [snd] in Hx.
    destruct (forallb hashable (if decide (k = target_key) then [x] else [])) eqn:E0.
    + assert (∃ acc', (if decide (k = target_key) then set_add x acc else Ok acc) = Ok acc')
        as [acc' ->].
      { case_decide; [|by eauto]. rewrite set_add_hashable; [by eauto|].
        simpl in E0. by apply andb_prop in E0 as [? _]. }
      cbn [mbind result_bind].
      destruct (forallb hashable (import_values x)) eqn:E1.
      * rewrite find_imports_ok by done. cbn [mbind result_bind]. by apply IHl.
      * by rewrite Hx.
    + case_decide; [|done]. simpl in E0. rewrite andb_true_r in E0.
      unfold set_add, hashable in *. by destruct (hash_key x).
Qed.

Lemma extract_imports D r :
  extract_exports_and_imports D = Ok r → find_imports D ∅ = Ok (imports r).
Proof.
  unfold extract_exports_and_imports.
  destruct (scan_exports D); [|done]. destruct (find_imports D ∅); [|done].
  by intros [= <-].
Qed.

(** C2 fails on the code: in a template that imports a name built with
    [Fn::Sub], the value keyed by [Fn::ImportValue] is a mapping; the claim,
    and the docstring of [find_imports], have the value recorded and the
    traversal go on into it, and [imports.add(value)] raises [TypeError]
    before the recursive call is reached, so the scan of the whole document
    raises and no ScanResult is produced. *)
Theorem imports_of_nested_value_raise :
  import_value_in nested_import_doc (VDict [("Fn::Sub", VStr "${Stack}-Name")]) ∧
  ¬ imports_as_stated nested_import_doc ∧
  find_imports nested_import_doc ∅ = Raise TypeError ∧
  extract_exports_and_imports nested_import_doc = Raise TypeError.
Proof.
  assert (find_imports nested_import_doc ∅ = Raise TypeError) as E
    by by apply find_imports_raise.
  split; [|split; [|split; [done|]]].
  - apply import_values_spec.
    assert (import_values nested_import_doc = [VDict [("Fn::Sub", VStr "${Stack}-Name")]])
      as -> by done.
    by left.
  - intros (r & Hr%extract_imports & _). congruence.
  - unfold extract_exports_and_imports.
    assert (scan_exports nested_import_doc = Ok ∅) as -> by done.
    cbn [mbind result_bind]. by rewrite E.
Qed.

(** Where every value keyed by [Fn::ImportValue], at any depth of mappings
    and sequences, is a scalar, the import scan succeeds and the imports of
    the ScanResult are exactly those values, as a set. *)
Lemma imports_exact D :
  forallb hashable (import_values D) = true →
  ∃ s, find_imports D ∅ = Ok s ∧
       (∀ a, a ∈ s ↔ ∃ v, import_value_in D v ∧ hash_key v = Some a) ∧
       (∀ r, extract_exports_and_imports D = Ok r → imports r = s).
Proof.
  intros H. eexists. split; [by apply find_imports_ok|]. split.
  - intros a. rewrite elem_of_union, elem_of_list_to_set, list_elem_of_omap. split.
    + intros [?%elem_of_empty|(v & Hv & Ha)]; [done|].
      exists v. by rewrite <-import_values_spec.
    + intros (v & Hv & Ha). right. exists v. by rewrite import_values_spec.
  - intros r Hr%extract_imports. rewrite find_imports_ok in Hr by done. congruence.
Qed.

Lemma imports_exact_witness :
  ∃ s, find_imports plain_import_doc ∅ = Ok s ∧
       (∀ a, a ∈ s ↔ ∃ v, import_value_in plain_import_doc v ∧ hash_key v = Some a) ∧
       (∀ r, extract_exports_and_imports plain_import_doc = Ok r → imports r = s).
Proof. apply (imports_exact plain_import_doc). vm_compute. reflexivity. Defined.

(** ** Exports *)

Lemma dict_get_None key items : dict_get key items = None ↔ key ∉ items.*1.
Proof.
  induction items as [|[k v] items IH]; cbn [dict_get fmap list_fmap fst].
  - split; [intros _ ?%elem_of_nil|]; done.
  - rewrite not_elem_of_cons. case_decide; [subst; split; [done|tauto]|].
    rewrite IH. split; [intros; split; congruence|tauto].
Qed.

Lemma collect_exports_cons v vs acc :
  collect_exports (v :: vs) acc =
    acc' ← (e ← get v "Export" (VDict []);
            export ← get e "Name" VNone;
            if truthy export then set_add export acc else Ok acc);
    collect_exports vs acc'.
Proof. reflexivity. Qed.

Lemma collect_exports_ok vs acc :
  forallb output_well_shaped vs = true →
  collect_exports vs acc =
    Ok (acc ∪ list_to_set
          (omap hash_key (filter (λ v, truthy v = true) (omap export_name vs)))).
Proof.
  revert acc; induction vs as [|v vs IH]; intros acc.
  { intros _. cbn. f_equal. set_solver. }
  cbn [forallb]. intros [Hv Hvs]%andb_prop. rewrite collect_exports_cons.
  assert ((e ← get v "Export" (VDict []);
           export ← get e "Name" VNone;
           if truthy export then set_add export acc else Ok acc)
          = Ok (acc ∪ list_to_set (omap hash_key
                  (filter (λ v, truthy v = true) (option_list (export_name v)))))) as ->.
  { destruct v as [ | | | | | |o]; try done. cbn [get export_name output_well_shaped] in *.
    cbn [mbind result_bind].
    destruct (dict_get "Export" o) as [[ | | | | | |e]|]; try done;
      cbn [default from_option id get mbind result_bind dict_get];
      [|cbn; f_equal; set_solver].
    destruct (dict_get "Name" e) as [n|]; cbn [default from_option id option_list option_rect];
      [|cbn; f_equal; set_solver].
    rewrite filter_cons, filter_nil. destruct (truthy n) eqn:Hn.
    - rewrite decide_True by done. cbn [negb orb] in Hv. by apply set_add_hashable.
    - rewrite decide_False by done. cbn. f_equal. set_solver. }
  cbn [mbind result_bind]. rewrite IH by done. f_equal.
  assert (omap export_name (v :: vs)
          = (option_list (export_name v) ++ omap export_name vs)%list) as ->
    by (cbn [omap list_omap]; by destruct (export_name v)).
  rewrite filter_app, omap_app, list_to_set_app_L. set_solver.
Qed.

Lemma scan_exports_ok D :
  outputs_well_shaped D = true →
  scan_exports D =
    Ok (list_to_set (omap hash_key (filter (λ v, truthy v = true) (export_names D)))).
Proof.
  destruct D as [ | | | | | |items]; try done.
  unfold scan_exports. cbn [outputs_well_shaped contains export_names mbind result_bind].
  destruct (dict_get "Outputs" items) as [outputs|] eqn:E.
  - rewrite bool_decide_eq_true_2
      by (apply dec_stable; rewrite <-dict_get_None; congruence).
    cbn [get]. rewrite E. cbn [default from_option id mbind result_bind].
    destruct outputs as [ | | | | | |outs]; try done.
    intros H. cbn [values mbind result_bind]. rewrite collect_exports_ok by done.
    f_equal. set_solver.
  - rewrite bool_decide_eq_false_2 by by apply dict_get_None. done.
Qed.

Lemma collect_exports_raise vs acc :
  forallb output_well_shaped vs = false → ∃ e, collect_exports vs acc = Raise e.
Proof.
  revert acc; induction vs as [|v vs IH]; intros acc; [done|].
  cbn [forallb]. rewrite collect_exports_cons.
  destruct (output_well_shaped v) eqn:Hv; cbn [andb].
  - intros Hvs. pose proof (collect_exports_ok [v] acc) as Hok.
    rewrite collect_exports_cons in Hok. cbn [forallb] in Hok. rewrite Hv in Hok.
    specialize (Hok eq_refl).
    destruct (e ← get v "Export" (VDict []);
              export ← get e "Name" VNone;
              if truthy export then set_add export acc else Ok acc) as [acc'|]; [|done].
    cbn [mbind result_bind]. by apply IH.
  - intros _. destruct v as [ | | | | | |o]; try (by eexists).
    cbn [get output_well_shaped mbind result_bind] in *.
    destruct (dict_get "Export" o) as [[ | | | | | |e]|]; try done; try (by eexists).
    cbn [default from_option id get mbind result_bind].
    destruct (dict_get "Name" e) as [n|]; [|done].
    cbn [default from_option id]. destruct (truthy n); [|done]. cbn [negb orb] in Hv.
    unfold set_add, hashable in *. destruct (hash_key n); [done|]. by eexists.
Qed.

(** A mapping that is not well shaped makes the export scan raise. *)
Lemma scan_exports_raise items :
  outputs_well_shaped (VDict items) = false → ∃ e, scan_exports (VDict items) = Raise e.
Proof.
  unfold scan_exports. cbn [outputs_well_shaped contains mbind result_bind].
  destruct (dict_get "Outputs" items) as [outputs|] eqn:E; [|done].
  rewrite bool_decide_eq_true_2
    by (apply dec_stable; rewrite <-dict_get_None; congruence).
  cbn [get]. rewrite E. cbn [default from_option id mbind result_bind].
  destruct outputs as [ | | | | | |outs]; try (by eexists).
  intros H. cbn [values mbind result_bind]. by apply collect_exports_raise.
Qed.

Lemma extract_exports D r :
  extract_exports_and_imports D = Ok r → scan_exports D = Ok (exports r).
Proof.
  unfold extract_exports_and_imports.
  destruct (scan_exports D); [|done]. destruct (find_imports D ∅); [|done].
  by intros [= <-].
Qed.

(** C3 fails on the code: in a template whose output is exported under a
    name built with [Fn::Sub], the value at [Export.Name] is a mapping, a
    non-empty value at that path; the claim has it in the exports, and
    [exports.add(export)] raises [TypeError] on it, so
    [extract_exports_and_imports], whose docstring promises a dict, produces
    no ScanResult. *)
Theorem exports_of_mapping_name_raise :
  export_names sub_export_doc = [VDict [("Fn::Sub", VStr "${AWS::StackName}-VpcId")]] ∧
  truthy (VDict [("Fn::Sub", VStr "${AWS::StackName}-VpcId")]) = true ∧
  ¬ exports_as_stated sub_export_doc ∧
  scan_exports sub_export_doc = Raise TypeError ∧
  extract_exports_and_imports sub_export_doc = Raise TypeError.
Proof.
  assert (scan_exports sub_export_doc = Raise TypeError) as E by done.
  split; [done|]. split; [done|]. split; [|split; [done|]].
  - intros (r & Hr%extract_exports & _). congruence.
  - unfold extract_exports_and_imports. by rewrite E.
Qed.

(** Where the document is a mapping whose [Outputs], when present, is a
    mapping of mappings, in which every [Export] is a mapping and every
    truthy [Export.Name] a scalar, the export scan succeeds and the exports
    of the ScanResult are exactly the truthy values at
    [Outputs.*.Export.Name]; without [Outputs] the set is empty. *)
Lemma exports_exact D :
  outputs_well_shaped D = true →
  ∃ s, scan_exports D = Ok s ∧
       (∀ a, a ∈ s ↔ ∃ v, v ∈ export_names D ∧ truthy v = true ∧ hash_key v = Some a) ∧
       (∀ r, extract_exports_and_imports D = Ok r → exports r = s) ∧
       (∀ items, D = VDict items → "Outputs" ∉ items.*1 → s = ∅).
Proof.
  intros H. eexists. split; [by apply scan_exports_ok|]. split; [|split].
  - intros a. rewrite elem_of_list_to_set, list_elem_of_omap. split.
    + intros (v & [Hv1 Hv2]%list_elem_of_filter & Ha). eauto.
    + intros (v & Hv1 & Hv2 & Ha). exists v. by rewrite list_elem_of_filter.
  - intros r Hr%extract_exports. rewrite scan_exports_ok in Hr by done. congruence.
  - intros items -> Hno. cbn [export_names].
    apply dict_get_None in Hno as ->. done.
Qed.

Lemma exports_exact_witness :
  ∃ s, scan_exports plain_export_doc = Ok s ∧
       (∀ a, a ∈ s ↔
          ∃ v, v ∈ export_names plain_export_doc ∧ truthy v = true ∧ hash_key v = Some a) ∧
       (∀ r, extract_exports_and_imports plain_export_doc = Ok r → exports r = s) ∧
       (∀ items, plain_export_doc = VDict items → "Outputs" ∉ items.*1 → s = ∅).
Proof. apply (exports_exact plain_export_doc). vm_compute. reflexivity. Defined.

(** ** What the sets hold *)

Lemma for_each_inv {A S} (P : S → Prop) (body : A → S → result S) l s s' :
  (∀ x s s', body x s = Ok s' → P s → P s') →
  P s → for_each body l s = Ok s' → P s'.
Proof.
  intros Hbody. revert s; induction l as [|x l IH]; intros s Hs; cbn [for_each].
  - by intros [= <-].
  - destruct (body x s) as [s1|] eqn:E; [|done]. cbn [mbind result_bind].
    apply IH. by eapply Hbody.
Qed.

Lemma scan_exports_truthy D s : scan_exports D = Ok s → truthy_atoms s.
Proof.
  unfold scan_exports. destruct (contains "Outputs" D) as [[]|]; cbn [mbind result_bind];
    [|intros [= <-] a ?%elem_of_empty; done|done].
  destruct (get D "Outputs" VNone) as [outputs|]; [|done]. cbn [mbind result_bind].
  destruct (values outputs) as [vs|]; [|done]. cbn [mbind result_bind].
  apply for_each_inv; [|by intros a ?%elem_of_empty].
  intros v s1 s2 Hs2 Hs1.
  destruct (get v "Export" (VDict [])) as [e|]; [|done]. cbn [mbind result_bind] in Hs2.
  destruct (get e "Name" VNone) as [n|]; [|done]. cbn [mbind result_bind] in Hs2.
  destruct (truthy n) eqn:Hn; [|by injection Hs2 as <-].
  unfold set_add in Hs2. destruct (hash_key n) as [b|] eqn:Hb; [|done].
  injection Hs2 as <-. intros a [->%elem_of_singleton|Ha]%elem_of_union; eauto.
Qed.

Lemma truthy_atom_not_empty v : truthy v = true → hash_key v ≠ Some (AStr "").
Proof.
  destruct v as [ | | |f|s| | ]; try done.
  - destruct f as [| | |sg m e]; try done. cbn [hash_key float_key].
    destruct (odd_part m) as [q t]. by case_match.
  - cbn. destruct s; [done|]. by intros _ [=].
Qed.

Lemma markers_of_shape cs s ms m :
  markers_of cs s ms → m ∈ ms → ∃ p, payload_ok cs p = true ∧ m = "{{resolve:" ++ p ++ "}}".
Proof.
  induction 1 as [|p rest ms Hp _ IH|]; [by intros ?%elem_of_nil| |done].
  intros [->|Hm]%elem_of_cons; eauto.
Qed.

(** When both scans succeed, the ScanResult, with its sets as the scans
    build them. *)
Lemma extract_ok D :
  outputs_well_shaped D = true →
  forallb hashable (import_values D) = true →
  extract_exports_and_imports D =
    Ok {| exports :=
            list_to_set (omap hash_key (filter (λ v, truthy v = true) (export_names D)));
          imports := ∅ ∪ list_to_set (omap hash_key (import_values D));
          dynamics := ∅ ∪ list_to_set (AStr <$> found_markers D) |}.
Proof.
  intros H1 H2. unfold extract_exports_and_imports.
  rewrite scan_exports_ok, find_imports_ok, find_dynamic_references_spec by done. done.
Qed.

(** C7, as stated, fails: the import scan keeps an empty name, and the export
    scan keeps a name that is a number. *)
Lemma empty_import_name_kept :
  ∃ r, extract_exports_and_imports odd_names_doc = Ok r ∧
       AStr "" ∈ imports r ∧ AInt 5432 ∈ exports r ∧
       ¬ only_nonempty_strings (imports r) ∧ ¬ only_nonempty_strings (exports r).
Proof.
  eexists. split; [by apply extract_ok|]. cbn [imports exports].
  assert (import_values odd_names_doc = [VStr ""]) as -> by done.
  assert (export_names odd_names_doc = [VInt 5432]) as -> by done.
  assert (AStr "" ∈ (∅ ∪ list_to_set (omap hash_key [VStr ""]) : gset atom)) as H1
    by (cbn; set_solver).
  assert (AInt 5432 ∈ (list_to_set (omap hash_key
            (filter (λ v, truthy v = true) [VInt 5432])) : gset atom)) as H2
    by (rewrite filter_cons, filter_nil, decide_True by done; cbn; set_solver).
  split; [exact H1|]. split; [exact H2|]. split; intros H.
  - destruct (H _ H1) as (t & [= <-] & Ht). done.
  - destruct (H _ H2) as (t & [=] & _).
Qed.

(** C7 (amended): for every document successfully scanned, the dynamics are
    non-empty strings and the exports are truthy scalars, so no export is the
    empty string. *)
Theorem scanned_sets D r :
  extract_exports_and_imports D = Ok r →
  only_nonempty_strings (dynamics r) ∧ truthy_atoms (exports r) ∧ AStr "" ∉ exports r.
Proof.
  intros Hr. split; [|split].
  - rewrite (extract_dynamics _ _ Hr). intros a Ha.
    apply find_dynamic_references_markers in Ha as (s & ms & m & _ & Hms & Hm & ->).
    destruct (markers_of_shape _ _ _ _ Hms Hm) as (p & _ & ->).
    eexists. split; [done|]. by rewrite !str_app_cons.
  - by apply (scan_exports_truthy D), extract_exports.
  - intros Ha. apply (scan_exports_truthy D _ (extract_exports _ _ Hr)) in Ha as (v & Hv & Ha).
    by apply truthy_atom_not_empty in Hv.
Qed.

Lemma scanned_sets_witness :
  ∃ r, extract_exports_and_imports plain_export_doc = Ok r ∧
       only_nonempty_strings (dynamics r) ∧ truthy_atoms (exports r) ∧ AStr "" ∉ exports r.
Proof.
  eexists. split; [by apply extract_ok|].
  apply (scanned_sets plain_export_doc). by apply extract_ok.
Defined.

(** C4, as stated, fails: a marker whose payload holds a line feed is a
    substring of the form [{{resolve:<anything>}}], and the scan does not
    report it. *)
Lemma multiline_marker_missed :
  ∃ r, extract_exports_and_imports multiline_doc = Ok r ∧
       ¬ dynamics_spec any_char multiline_doc (dynamics r).
Proof.
  eexists. split; [by apply extract_ok|]. cbn [dynamics]. intros H.
  pose (m := "{{resolve:ssm:/app/key" ++ newline ++ "}}").
  destruct (H (AStr m)) as [_ H'].
  assert (found_markers multiline_doc = []) as E by (vm_compute; reflexivity).
  rewrite E in H'. cut (AStr m ∈ (∅ : gset atom)); [set_solver|].
  cut (AStr m ∈ (∅ ∪ list_to_set (AStr <$> []) : gset atom)); [set_solver|].
  apply H'. exists m, [m], m. split; [|split; [|split]]; [| |set_solver|done].
  - apply list_elem_of_In. vm_compute. tauto.
  - exact (markers_hit any_char ("ssm:/app/key" ++ newline) "" [] eq_refl (markers_end _)).
Qed.

(** C4 (amended): for every decoded document, the dynamics of the ScanResult
    are exactly the markers [{{resolve:<payload>}}] found from left to right,
    without overlap, in the string scalars anywhere in the document, where a
    payload holds no line feed and ends at the first [}}]; each marker is kept
    verbatim, and one scalar may give none, one or several. *)
Theorem dynamics_exact D r :
  extract_exports_and_imports D = Ok r → dynamics_spec Re.dot D (dynamics r).
Proof.
  intros Hr. rewrite (extract_dynamics _ _ Hr). apply find_dynamic_references_markers.
Qed.

Lemma dynamics_exact_witness :
  ∃ r, extract_exports_and_imports dynamic_doc = Ok r ∧
       dynamics_spec Re.dot dynamic_doc (dynamics r).
Proof.
  eexists. split; [by apply extract_ok|].
  apply (dynamics_exact dynamic_doc). by apply extract_ok.
Defined.

Example dynamic_doc_markers :
  found_markers dynamic_doc =
    ["{{resolve:ssm-secure:MyParam:1}}"; "{{resolve:ssm:TagParam:latest}}";
     "{{resolve:ssm:Other}}"].
Proof. vm_compute. reflexivity. Qed.

(** ** The stricter pattern *)

Lemma before_final_close_spec cs t p :
  before_final_close cs t = Some p ↔ forall_chars cs p = true ∧ t = p ++ "}}".
Proof.
  split.
  - revert p; induction t as [|a t IH]; intros p; cbn [before_final_close]; [done|].
    case_decide as E; [intros [= <-]; by rewrite E|].
    destruct (cs a) eqn:Ha; [|done].
    destruct (before_final_close cs t) as [p'|]; [|done].
    intros [= <-]. destruct (IH p' eq_refl) as [Hp ->].
    cbn [forall_chars]. by rewrite Ha, Hp.
  - intros [Hp ->]. induction p as [|a p IH]; [done|].
    cbn [forall_chars] in Hp. apply andb_prop in Hp as [Ha Hp].
    rewrite str_app_cons. cbn [before_final_close].
    rewrite decide_False.
    + by rewrite Ha, IH.
    + intros [= -> E]. destruct p as [|b [|c p]]; by str_norm.
Qed.

Lemma tagged_payload_run (tag t : string) (g : Re.groups) :
  Re.run (Re.Lit tag) t g
    (λ m1 s1 g1,
       Re.run (Re.Seq (Re.Lit ":") (Re.Seq (Re.Group 2 (Re.Plus false Re.dot)) (Re.Lit "}}")))
         s1 (<[1 := m1]> g1)
         (λ _ rest g2, if decide (rest = "") then Some g2 else None))
  = (λ x, <[2 := x.2]> (<[1 := x.1]> g)) <$> tagged_payload tag t.
Proof.
  unfold tagged_payload, Re.Plus. cbn [Re.run].
  destruct (Str.strip_prefix tag t) as [s1|]; [|done].
  destruct (Str.strip_prefix ":" s1) as [[|a s2]|]; [done| |done].
  destruct (Re.dot a); [|done].
  rewrite (rep_lazy_final_close Re.dot s2
             (λ m, <[2 := String a "" ++ m]> (<[1 := tag]> g))).
  by destruct (before_final_close Re.dot s2).
Qed.

(** What [DYN_NODE_PATTERN.fullmatch] returns. *)
Lemma fullmatch_dyn_node imp :
  Re.fullmatch DYN_NODE_PATTERN imp
  = (λ x, <[2 := x.2]> (<[1 := x.1]> ∅)) <$> strict_marker_at imp.
Proof.
  unfold Re.fullmatch, DYN_NODE_PATTERN, service_tags, strict_marker_at.
  cbn [Re.run]. destruct (Str.strip_prefix "{{resolve:" imp) as [t|]; [|done].
  rewrite <-!orelse_fmap, <-!tagged_payload_run. done.
Qed.

Lemma tagged_payload_spec tag t x p :
  tagged_payload tag t = Some (x, p) ↔
  x = tag ∧ p ≠ "" ∧ forall_chars Re.dot p = true ∧ t = tag ++ ":" ++ p ++ "}}".
Proof.
  unfold tagged_payload. split.
  - destruct (Str.strip_prefix tag t) as [s1|] eqn:E1; [|done].
    destruct (Str.strip_prefix ":" s1) as [[|a s2]|] eqn:E2; [done| |done].
    destruct (Re.dot a) eqn:Ha; [|done].
    destruct (before_final_close Re.dot s2) as [p'|] eqn:E3; [|done].
    intros [= <- <-]. apply before_final_close_spec in E3 as [Hp ->].
    apply strip_prefix_Some in E1 as ->. apply strip_prefix_Some in E2 as ->.
    cbn [forall_chars]. by rewrite Ha, Hp.
  - intros (-> & Hne & Hp & ->). rewrite strip_prefix_app, strip_prefix_app.
    destruct p as [|a p]; [done|]. rewrite str_app_cons.
    cbn [forall_chars] in Hp. apply andb_prop in Hp as [-> Hp].
    by rewrite (proj2 (before_final_close_spec Re.dot (p ++ "}}") p)).
Qed.

Lemma strict_marker_at_spec imp tag p :
  strict_marker_at imp = Some (tag, p) ↔ strict_marker imp tag p.
Proof.
  unfold strict_marker_at, strict_marker. split.
  - destruct (Str.strip_prefix "{{resolve:" imp) as [t|] eqn:E; [|done].
    apply strip_prefix_Some in E as ->.
    destruct (tagged_payload "ssm" t) as [[x q]|] eqn:E1; cbn [Re.orelse].
    { intros [= -> ->]. apply tagged_payload_spec in E1 as (-> & ? & ? & ->).
      repeat split; [set_solver|done..]. }
    destruct (tagged_payload "ssm-secure" t) as [[x q]|] eqn:E2; cbn [Re.orelse].
    { intros [= -> ->]. apply tagged_payload_spec in E2 as (-> & ? & ? & ->).
      repeat split; [set_solver|done..]. }
    intros (-> & ? & ? & ->)%tagged_payload_spec. repeat split; [set_solver|done..].
  - intros (Htag & Hne & Hp & ->). rewrite strip_prefix_app.
    assert (tagged_payload tag (tag ++ ":" ++ p ++ "}}") = Some (tag, p)) as Ht
      by by apply tagged_payload_spec.
    repeat (apply elem_of_cons in Htag as [->|Htag]); [| | |by apply elem_of_nil in Htag].
    + by rewrite Ht.
    + rewrite Ht. by str_norm.
    + rewrite Ht. by str_norm.
Qed.

Lemma strict_marker_at_None imp :
  strict_marker_at imp = None ↔ ∀ tag p, ¬ strict_marker imp tag p.
Proof.
  split.
  - intros E tag p H%strict_marker_at_spec. congruence.
  - intros H. destruct (strict_marker_at imp) as [[tag p]|] eqn:E; [|done].
    apply strict_marker_at_spec in E. by destruct (H tag p).
Qed.

(** ** Normalization *)

Lemma span_spec cs i rest :
  forall_chars cs i = true →
  (∀ a r, rest = String a r → cs a = false) →
  span cs (i ++ rest) = (i, rest).
Proof.
  intros Hi Hrest. induction i as [|a i IH].
  - rewrite str_app_nil_l. destruct rest as [|a r]; [done|].
    cbn [span]. by rewrite (Hrest a r).
  - cbn [forall_chars] in Hi. apply andb_prop in Hi as [Ha Hi].
    rewrite str_app_cons. cbn [span]. by rewrite Ha, IH.
Qed.

Lemma span_inv cs s i r :
  span cs s = (i, r) → forall_chars cs i = true ∧ s = i ++ r.
Proof.
  revert i r; induction s as [|a s IH]; intros i r; cbn [span].
  - by intros [= <- <-].
  - destruct (cs a) eqn:Ha; [|by intros [= <- <-]].
    destruct (span cs s) as [i' r']. intros [= <- <-].
    destruct (IH i' r' eq_refl) as [Hi ->]. cbn [forall_chars]. by rewrite Ha, Hi.
Qed.

Lemma placeholder_at_spec s i rest :
  placeholder_at s = Some (i, rest) ↔ identifier i = true ∧ s = "${" ++ i ++ "}" ++ rest.
Proof.
  unfold placeholder_at, identifier. split.
  - destruct (Str.strip_prefix "${" s) as [t|] eqn:E; [|done].
    apply strip_prefix_Some in E as ->.
    destruct (span identifier_char t) as [i' r] eqn:Es.
    apply span_inv in Es as [Hi ->]. case_decide as Hne; [done|].
    destruct (Str.strip_prefix "}" r) as [rest'|] eqn:E; [|done].
    apply strip_prefix_Some in E as ->. intros [= <- <-].
    rewrite Hi, andb_true_r. split; [|done]. by destruct i'.
  - intros [[Hne Hi]%andb_prop ->]. rewrite strip_prefix_app.
    rewrite span_spec; [|done|by intros a r [= <- _]].
    rewrite decide_False by (by destruct i). by rewrite strip_prefix_app.
Qed.

(** What [PLACEHOLDER_PATTERN] matches at the start of a text. *)
Lemma match_here_placeholder s :
  Re.match_here PLACEHOLDER_PATTERN s
  = (λ x, ("${" ++ x.1 ++ "}", x.2, {[1 := x.1]})) <$> placeholder_at s.
Proof.
  unfold Re.match_here, PLACEHOLDER_PATTERN, placeholder_at, Re.Plus. cbn [Re.run].
  destruct (Str.strip_prefix "${" s) as [t|]; [|done].
  destruct t as [|a t]; [done|]. cbn [span].
  destruct (identifier_char a) eqn:Ha; [|done].
  rewrite (rep_greedy_span identifier_char t
             (λ m rest, ("${" ++ (String a "" ++ m) ++ "}", rest,
                         <[1 := String a "" ++ m]> (∅ : Re.groups)))) by done.
  destruct (span identifier_char t) as [i r]. cbn [fst snd].
  rewrite decide_False by done. by destruct (Str.strip_prefix "}" r).
Qed.

Lemma sub_from_skip r repl m rest :
  Re.sub_from r repl (m ++ rest) (String.length m) = Re.sub_from r repl rest 0.
Proof. induction m as [|a m IH]; [done|]. by rewrite str_app_cons. Qed.

Lemma sub_from_hit r repl m rest x g :
  m ≠ "" → Re.match_here r (m ++ rest) = Some (m, x, g) →
  Re.sub_from r repl (m ++ rest) 0 = repl g ++ Re.sub_from r repl rest 0.
Proof.
  intros Hm E. destruct m as [|b m]; [done|].
  rewrite str_app_cons in *. cbn [Re.sub_from]. rewrite E.
  by rewrite sub_from_skip.
Qed.

Lemma sub_from_miss r repl a s :
  Re.match_here r (String a s) = None →
  Re.sub_from r repl (String a s) 0 = String a (Re.sub_from r repl s 0).
Proof. intros E. cbn [Re.sub_from]. by rewrite E. Qed.

Lemma sub_placeholder_hit i rest :
  identifier i = true →
  Re.sub_from PLACEHOLDER_PATTERN (λ g, "$" ++ Re.group g 1) ("${" ++ i ++ "}" ++ rest) 0
  = "$" ++ i ++ Re.sub_from PLACEHOLDER_PATTERN (λ g, "$" ++ Re.group g 1) rest 0.
Proof.
  intros Hi.
  assert (placeholder_at (("${" ++ i ++ "}") ++ rest) = Some (i, rest)) as E.
  { apply placeholder_at_spec. by rewrite !str_app_assoc. }
  transitivity (Re.sub_from PLACEHOLDER_PATTERN (λ g, "$" ++ Re.group g 1)
                  (("${" ++ i ++ "}") ++ rest) 0); [by rewrite !str_app_assoc|].
  erewrite sub_from_hit; [|by str_norm|by rewrite match_here_placeholder, E].
  cbn beta. by rewrite str_app_assoc.
Qed.

Lemma sub_unbraced_aux n s :
  (String.length s ≤ n)%nat →
  unbraced s (Re.sub PLACEHOLDER_PATTERN (λ g, "$" ++ Re.group g 1) s).
Proof.
  unfold Re.sub. revert s; induction n as [|n IH]; intros s Hn.
  - destruct s; [|simpl in Hn; lia]. cbn. constructor.
  - destruct (placeholder_at s) as [[i rest]|] eqn:E.
    + pose proof E as [Hi ->]%placeholder_at_spec.
      rewrite sub_placeholder_hit by done.
      apply unbraced_placeholder; [done|].
      apply IH. rewrite !str_length_app in Hn. simpl in Hn. lia.
    + destruct s as [|a s]; [cbn; constructor|].
      rewrite sub_from_miss by (by rewrite match_here_placeholder, E).
      apply unbraced_copy.
      * intros i rest Hi Hs. rewrite (proj2 (placeholder_at_spec _ i rest)) in E; done.
      * apply IH. simpl in Hn. lia.
Qed.

Lemma sub_unbraced s :
  unbraced s (Re.sub PLACEHOLDER_PATTERN (λ g, "$" ++ Re.group g 1) s).
Proof. by apply (sub_unbraced_aux (String.length s)). Qed.

Lemma unbraced_functional s out1 out2 : unbraced s out1 → unbraced s out2 → out1 = out2.
Proof.
  intros H1; revert out2; induction H1 as [|i rest out Hi H1 IH|a s out Hno H1 IH];
    intros out2 H2.
  - by inversion H2.
  - inversion H2 as [|i' rest' out' Hi' H' E|a s out' Hno' H' E].
    + rewrite ?str_app_cons, ?str_app_nil_l in E.
      assert (placeholder_at ("${" ++ i ++ "}" ++ rest) = Some (i, rest)) as P1
        by by apply placeholder_at_spec.
      assert (placeholder_at ("${" ++ i' ++ "}" ++ rest') = Some (i', rest')) as P2
        by by apply placeholder_at_spec.
      rewrite !str_app_cons, !str_app_nil_l in P1, P2.
      rewrite <-E, P2 in P1. injection P1 as -> ->. f_equal. by rewrite (IH _ H').
    + exfalso. by eapply Hno'.
  - inversion H2 as [|i' rest' out' Hi' H' E|a' s' out' Hno' H' E]; subst.
    + exfalso. by eapply Hno.
    + f_equal. by apply IH.
Qed.

Lemma remove_braces s : Str.remove "}" (Str.remove "{" s) = without_braces s.
Proof.
  induction s as [|a s IH]; [done|]. cbn [Str.remove without_braces].
  destruct (Ascii.eqb_spec a "{") as [->|]; [done|].
  cbn [Str.remove orb]. rewrite IH. by destruct (Ascii.eqb a "}").
Qed.

(** [normalize_dynamic_node] does what the specification calls
    normalization, and nothing else does. *)
Lemma normalize_dynamic_node_spec node out :
  normalized node out ↔ out = normalize_dynamic_node node.
Proof.
  unfold normalized, normalize_dynamic_node. rewrite remove_braces. split.
  - intros (mid & Hmid & ->). by rewrite (unbraced_functional _ _ _ Hmid (sub_unbraced node)).
  - intros ->. eexists. split; [apply sub_unbraced|done].
Qed.

Lemma without_braces_app s t : without_braces (s ++ t) = without_braces s ++ without_braces t.
Proof.
  induction s as [|a s IH]; [done|]. rewrite str_app_cons. cbn [without_braces].
  destruct (Ascii.eqb a "{" || Ascii.eqb a "}"); [done|]. by rewrite str_app_cons, IH.
Qed.

Lemma without_braces_identifier i :
  forall_chars identifier_char i = true → without_braces i = i.
Proof.
  induction i as [|a i IH]; [done|]. cbn [forall_chars without_braces].
  intros [Ha Hi]%andb_prop. rewrite IH by done.
  destruct (Ascii.eqb_spec a "{") as [->|]; [done|].
  destruct (Ascii.eqb_spec a "}") as [->|]; done.
Qed.

Lemma unbraced_without_braces s mid : unbraced s mid → without_braces mid = without_braces s.
Proof.
  induction 1 as [|i rest out Hi _ IH|a s out _ _ IH].
  - done.
  - apply andb_prop in Hi as [_ Hi].
    rewrite !without_braces_app, IH. rewrite (without_braces_identifier i Hi).
    change (without_braces "$") with "$". change (without_braces "${") with "$".
    change (without_braces "}") with "". by str_norm.
  - cbn [without_braces]. by rewrite IH.
Qed.

(** Replacing the placeholders first changes nothing in the end: a
    normalized name is the name without its braces. *)
Lemma normalize_dynamic_node_braces node :
  normalize_dynamic_node node = without_braces node.
Proof.
  unfold normalize_dynamic_node. rewrite remove_braces.
  apply unbraced_without_braces, sub_unbraced.
Qed.

(** ** Rendering of dynamic edges *)

Lemma dynamic_label_node_spec imp :
  dynamic_label_node imp =
    match strict_marker_at imp with
    | Some (tag, payload) => (tag, normalize_dynamic_node payload)
    | None => ("dynamic", normalize_dynamic_node imp)
    end.
Proof.
  unfold dynamic_label_node. change FALLBACK_PATTERN with DYN_NODE_PATTERN.
  rewrite fullmatch_dyn_node. by destruct (strict_marker_at imp) as [[tag p]|].
Qed.

(** The line of one dynamic edge. *)
Lemma edge_line_dynamic src dst imp :
  ∃ label node,
    edge_line (src, dst, imp, "dynamic")
    = "    " ++ short_name src ++ "-->|" ++ label ++ "|" ++ node ++ "[(" ++ node ++ ")]" ∧
    ((∃ tag payload,
        strict_marker imp tag payload ∧ label = tag ∧ normalized payload node) ∨
     ((∀ tag payload, ¬ strict_marker imp tag payload) ∧
        label = "dynamic" ∧ normalized imp node)).
Proof.
  unfold edge_line. rewrite decide_True by done. rewrite dynamic_label_node_spec.
  destruct (strict_marker_at imp) as [[tag p]|] eqn:E.
  - exists tag, (normalize_dynamic_node p). split; [done|]. left. exists tag, p.
    split; [by apply strict_marker_at_spec|]. split; [done|].
    by apply normalize_dynamic_node_spec.
  - exists "dynamic", (normalize_dynamic_node imp). split; [done|]. right.
    split; [by apply strict_marker_at_None|]. split; [done|].
    by apply normalize_dynamic_node_spec.
Qed.

(** C5: for every dynamic edge of the list it is given,
    [generate_mermaid_text] emits a text, printed on the primary stream when
    no output file is named and written to the file when one is named and
    opens, that is the header, the graph line, one line for each edge in
    sorted order and the footer, and among these lines is
    [src-->|label|node[(node)]] for the edge, the node in the cylinder
    shape; when the marker has the stricter form
    [{{resolve:<tag>:<payload>}}] with one of the three service tags, the
    label is the tag and the node the normalized payload, and otherwise the
    label is [dynamic] and the node the normalized marker; normalizing
    replaces each [${Identifier}] by [$Identifier] and then removes every
    brace left. *)
Theorem dynamic_edge_rendering edges src dst imp direction w :
  (src, dst, imp, "dynamic") ∈ edges →
  ∃ label node lines text,
    ((∃ tag payload,
        strict_marker imp tag payload ∧ label = tag ∧ normalized payload node) ∨
     ((∀ tag payload, ¬ strict_marker imp tag payload) ∧
        label = "dynamic" ∧ normalized imp node)) ∧
    Sorted String.le lines ∧ length lines = length edges ∧
    "    " ++ short_name src ++ "-->|" ++ label ++ "|" ++ node ++ "[(" ++ node ++ ")]" ∈ lines ∧
    text = Str.join newline
             (diagram_header :: graph_line direction :: lines ++ [diagram_footer])%list ∧
    generate_mermaid_text edges None direction w = (Returned, print text w) ∧
    (∀ path, path ≠ "" → open_w w path = None →
       generate_mermaid_text edges (Some path) direction w
       = (Returned,
          print ("Mermaid notation has been output to " ++ path ++ ".")
            (write_file path text w))).
Proof.
  intros Hin. destruct (edge_line_dynamic src dst imp) as (label & node & E & H).
  exists label, node, (merge_sort String.le (edge_line <$> edges)),
    (mermaid_text edges direction).
  split; [done|]. split; [apply Sorted_merge_sort, _|].
  split; [by rewrite merge_sort_Permutation, length_fmap|].
  split; [|split; [done|split; [done|]]].
  - rewrite merge_sort_Permutation, <-E. apply list_elem_of_fmap.
    by exists (src, dst, imp, "dynamic").
  - intros path Hpath Hopen. unfold generate_mermaid_text, emit.
    rewrite decide_False by done. by rewrite Hopen.
Qed.

Lemma dynamic_edge_rendering_witness :
  ∃ label node lines text,
    ((∃ tag payload,
        strict_marker "{{resolve:ssm:/app/key}}" tag payload ∧ label = tag ∧
        normalized payload node) ∨
     ((∀ tag payload, ¬ strict_marker "{{resolve:ssm:/app/key}}" tag payload) ∧
        label = "dynamic" ∧ normalized "{{resolve:ssm:/app/key}}" node)) ∧
    Sorted String.le lines ∧ length lines = length two_edges ∧
    "    " ++ short_name "stacks/app.yaml" ++ "-->|" ++ label ++ "|" ++ node
      ++ "[(" ++ node ++ ")]" ∈ lines ∧
    text = Str.join newline
             (diagram_header :: graph_line "LR" :: lines ++ [diagram_footer])%list ∧
    generate_mermaid_text two_edges None "LR" failing_world
      = (Returned, print text failing_world) ∧
    (∀ path, path ≠ "" → open_w failing_world path = None →
       generate_mermaid_text two_edges (Some path) "LR" failing_world
       = (Returned,
          print ("Mermaid notation has been output to " ++ path ++ ".")
            (write_file path text failing_world))).
Proof.
  apply (dynamic_edge_rendering two_edges "stacks/app.yaml" "{{resolve:ssm:/app/key}}"
           "{{resolve:ssm:/app/key}}" "LR" failing_world).
  unfold two_edges. right. left.
Defined.

(** ** The fallback branch *)

(** C10: the pattern of the fallback branch is [DYN_NODE_PATTERN] itself, so
    its [fullmatch] agrees with the first one on every marker, the branch is
    never taken when the first match fails, and [generate_mermaid_text] does
    what it does with the branch removed. *)
Theorem fallback_branch_dead :
  FALLBACK_PATTERN = DYN_NODE_PATTERN ∧
  (∀ imp, Re.fullmatch FALLBACK_PATTERN imp = Re.fullmatch DYN_NODE_PATTERN imp) ∧
  (∀ imp, Re.fullmatch DYN_NODE_PATTERN imp = None →
          Re.fullmatch FALLBACK_PATTERN imp = None) ∧
  (∀ imp, dynamic_label_node imp = dynamic_label_node_direct imp) ∧
  (∀ e, edge_line e = edge_line_direct e) ∧
  (∀ edges output_file direction w,
     generate_mermaid_text edges output_file direction w
     = generate_mermaid_text_direct edges output_file direction w).
Proof.
  assert (∀ imp, dynamic_label_node imp = dynamic_label_node_direct imp) as Hl.
  { intros imp. unfold dynamic_label_node, dynamic_label_node_direct.
    destruct (Re.fullmatch DYN_NODE_PATTERN imp) eqn:E; [done|].
    change FALLBACK_PATTERN with DYN_NODE_PATTERN. by rewrite E. }
  assert (∀ e, edge_line e = edge_line_direct e) as He.
  { intros [[[src dst] imp] typ]. unfold edge_line, edge_line_direct.
    case_decide; [|done]. by rewrite Hl. }
  repeat split; try done.
  intros edges output_file direction w.
  unfold generate_mermaid_text, generate_mermaid_text_direct, mermaid_text.
  assert (edge_line <$> edges = edge_line_direct <$> edges) as ->; [|done].
  induction edges as [|e edges IH]; [done|]. cbn [fmap list_fmap]. by f_equal.
Qed.

(** ** Order of the rendered lines *)

Lemma sorted_lines_unique (l1 l2 : list string) :
  l1 ≡ₚ l2 → merge_sort String.le l1 = merge_sort String.le l2.
Proof.
  intros H. apply (Sorted_unique String.le).
  - apply Sorted_merge_sort, _.
  - apply Sorted_merge_sort, _.
  - by rewrite !merge_sort_Permutation.
Qed.

(** C6: the edge lines are sorted by their full text before they are joined,
    so two edge lists that are permutations of each other give the same
    diagram text and the same output, and so does one list rendered twice. *)
Theorem rendering_order_independent edges1 edges2 direction :
  edges1 ≡ₚ edges2 →
  (∃ lines,
     Sorted String.le lines ∧ lines ≡ₚ edge_line <$> edges1 ∧
     mermaid_text edges1 direction =
       Str.join newline
         (diagram_header :: graph_line direction :: lines ++ [diagram_footer])%list) ∧
  mermaid_text edges1 direction = mermaid_text edges2 direction ∧
  (∀ output_file w,
     generate_mermaid_text edges1 output_file direction w
     = generate_mermaid_text edges2 output_file direction w).
Proof.
  intros H.
  assert (mermaid_text edges1 direction = mermaid_text edges2 direction) as E.
  { unfold mermaid_text. by rewrite (sorted_lines_unique (edge_line <$> edges1)
                                      (edge_line <$> edges2)) by by rewrite H. }
  split; [|split; [done|]].
  - exists (merge_sort String.le (edge_line <$> edges1)).
    split; [apply Sorted_merge_sort, _|]. split; [apply merge_sort_Permutation|done].
  - intros output_file w. unfold generate_mermaid_text. by rewrite E.
Qed.

Lemma rendering_order_independent_witness :
  mermaid_text two_edges "LR" = mermaid_text two_edges_swapped "LR".
Proof.
  apply (rendering_order_independent two_edges two_edges_swapped "LR").
  apply perm_swap.
Defined.

Example two_edges_text :
  mermaid_text two_edges "LR" =
    "# CFn template dependency" ++ newline ++ newline ++ "```mermaid" ++ newline ++
    "graph LR" ++ newline ++
    "    app.yaml-->|VpcId|network.yaml" ++ newline ++
    "    app.yaml-->|ssm|/app/key[(/app/key)]" ++ newline ++
    "```" ++ newline.
Proof. vm_compute. reflexivity. Qed.

(** ** Write failures *)

(** C8: writing to a target path that is an existing directory exits with
    status 2, to one whose parent directory is missing with status 3, and
    without permission to write with status 4; each prints its own message on
    the diagnostic stream, and in no case is a file written or anything
    printed on the primary stream. *)
Theorem write_failures_distinguished edges path direction w :
  path ≠ "" →
  let run := generate_mermaid_text edges (Some path) direction w in
  let failed status what :=
    run.1 = Exited status ∧ files run.2 = files w ∧ stdout run.2 = stdout w ∧
    stderr run.2 = (stderr w ++ [error_text what path])%list in
  (open_w w path = Some IsADirectoryError → failed 2%Z "Is a directory: ") ∧
  (open_w w path = Some FileNotFoundError → failed 3%Z "Output directory not found: ") ∧
  (open_w w path = Some PermissionError →
     failed 4%Z "Permission denied when writing to: ") ∧
  error_text "Is a directory: " path ≠ error_text "Output directory not found: " path ∧
  error_text "Is a directory: " path ≠ error_text "Permission denied when writing to: " path ∧
  error_text "Output directory not found: " path
    ≠ error_text "Permission denied when writing to: " path.
Proof.
  intros Hpath. cbn zeta. unfold generate_mermaid_text, emit.
  rewrite decide_False by done.
  split; [by intros ->|]. split; [by intros ->|]. split; [by intros ->|].
  unfold error_text.
  repeat split; intros E; do 2 apply (inj (String.app _)) in E; by str_norm.
Qed.

Lemma write_failures_distinguished_witness :
  (generate_mermaid_text two_edges (Some "out") "LR" failing_world).1 = Exited 2 ∧
  (generate_mermaid_text two_edges (Some "missing/out.md") "LR" failing_world).1 = Exited 3 ∧
  (generate_mermaid_text two_edges (Some "locked.md") "LR" failing_world).1 = Exited 4.
Proof.
  split; [|split].
  - by apply (write_failures_distinguished two_edges "out" "LR" failing_world).
  - by apply (write_failures_distinguished two_edges "missing/out.md" "LR" failing_world).
  - by apply (write_failures_distinguished two_edges "locked.md" "LR" failing_world).
Defined.

(** ** Template discovery *)

Lemma glob_depth_one pattern d p : p ∈ glob pattern d → ∃ name, p = [name].
Proof.
  destruct d as [|entries]; cbn [glob]; [by intros ?%elem_of_nil|].
  intros (e & -> & _)%list_elem_of_fmap. eauto.
Qed.

(** What the code returns is never below the directory itself. *)
Lemma find_cfn_templates_depth_one d p : p ∈ find_cfn_templates d → ∃ name, p = [name].
Proof. intros [H|H]%elem_of_app; by eapply glob_depth_one. Qed.

(** C9 fails on the code: the docstring of [find_cfn_templates] and the
    specification promise a recursive search, and [glob("*.yml")] lists the
    directory itself only; a template in a subdirectory is not returned. *)
Theorem find_cfn_templates_not_recursive :
  ["sub"; "b.yaml"] ∈ templates_under nested_tree ∧
  ["sub"; "deep"; "c.yml"] ∈ templates_under nested_tree ∧
  find_cfn_templates nested_tree = [["a.yaml"]].
Proof.
  split; [|split]; [| |vm_compute; reflexivity];
    apply list_elem_of_In; vm_compute; tauto.
Qed.

(** ** Dependency graph *)

Lemma last_exporter_Some ti name path :
  last_exporter ti name = Some path ↔
  ∃ l1 info l2, ti = (l1 ++ (path, info) :: l2)%list ∧ name ∈ exports info ∧
                ∀ doc, doc ∈ l2 → name ∉ exports doc.2.
Proof.
  split.
  - revert path; induction ti as [|[p i] ti IH]; intros path; cbn [last_exporter]; [done|].
    destruct (last_exporter ti name) as [q|] eqn:E.
    + intros [= ->]. destruct (IH path eq_refl) as (l1 & info & l2 & -> & ? & ?).
      by exists ((p, i) :: l1), info, l2.
    + case_decide as Hin; [|done]. intros [= ->]. exists [], i, ti. split; [done|].
      split; [done|]. intros doc Hdoc Hname.
      clear IH Hin. induction ti as [|[p' i'] ti IH]; [by apply elem_of_nil in Hdoc|].
      cbn [last_exporter] in E. destruct (last_exporter ti name); [done|].
      case_decide; [done|]. apply elem_of_cons in Hdoc as [->|Hdoc]; [done|by apply IH].
  - intros (l1 & info & l2 & -> & Hin & Hl2).
    assert (last_exporter l2 name = None) as E2.
    { clear Hin. induction l2 as [|[p' i'] l2 IH]; [done|]. cbn [last_exporter].
      rewrite IH by (intros; apply Hl2; by right).
      rewrite decide_False; [done|]. apply (Hl2 (p', i')). by left. }
    induction l1 as [|[p i] l1 IH]; cbn [app last_exporter].
    + by rewrite E2, decide_True.
    + by rewrite IH.
Qed.

Lemma last_exporter_None ti name :
  last_exporter ti name = None ↔ ∀ doc, doc ∈ ti → name ∉ exports doc.2.
Proof.
  induction ti as [|[p i] ti IH]; cbn [last_exporter].
  - split; [intros _ doc ?%elem_of_nil|]; done.
  - destruct (last_exporter ti name) as [q|].
    + split; [done|]. intros H. assert (Some q = None) as [=]. apply IH.
      intros doc Hdoc. apply H. by right.
    + case_decide as Hin.
      * split; [done|]. intros H. destruct (H (p, i)); [by left|done].
      * split; [|done]. intros _ doc [->|Hdoc]%elem_of_cons; [done|].
        by apply (proj1 IH).
Qed.

Lemma insert_exports_lookup (nodes : gmap string string) path es name :
  foldl (λ nodes export, <[export := path]> nodes) nodes es !! name
  = if decide (name ∈ es) then Some path else nodes !! name.
Proof.
  revert nodes; induction es as [|e es IH]; intros nodes; cbn [foldl].
  - rewrite decide_False; [done|]. by intros ?%elem_of_nil.
  - rewrite IH. case_decide as H1.
    + rewrite decide_True; [done|]. by right.
    + destruct (decide (name = e)) as [->|Hne].
      * rewrite lookup_insert_eq, decide_True; [done|]. by left.
      * rewrite lookup_insert_ne by done. rewrite decide_False; [done|].
        by intros [?|?]%elem_of_cons.
Qed.

Lemma build_nodes_from (nodes0 : gmap string string) ti name :
  foldl (λ nodes '(path, info),
    foldl (λ nodes export, <[export := path]> nodes) nodes (exports info)) nodes0 ti !! name
  = match last_exporter ti name with
    | Some p => Some p
    | None => nodes0 !! name
    end.
Proof.
  revert nodes0; induction ti as [|[p i] ti IH]; intros nodes0; cbn [foldl last_exporter].
  - done.
  - rewrite IH. destruct (last_exporter ti name); [done|].
    rewrite insert_exports_lookup. by case_decide.
Qed.

(** Last write wins. *)
Lemma build_nodes_lookup ti name : build_nodes ti !! name = last_exporter ti name.
Proof.
  unfold build_nodes. rewrite build_nodes_from, lookup_empty.
  by destruct (last_exporter ti name).
Qed.

Lemma template_edges_app nodes path info acc :
  template_edges nodes path info acc
  = (acc ++ (import_edge nodes path <$> imports info)
         ++ ((λ dyn, (path, dyn, dyn, "dynamic")) <$> dynamics info))%list.
Proof.
  unfold template_edges. rewrite (assoc_L (++) acc). f_equal.
  revert acc. induction (imports info) as [|imp imps IH]; intros acc; cbn [foldl fmap list_fmap].
  - by rewrite (right_id_L [] (++)).
  - rewrite IH. unfold import_edge at 2, import_target.
    destruct (nodes !! imp); by rewrite <-(assoc_L (++)).
Qed.

(** The edges, template by template: the import edges of the template, then
    its dynamic edges. *)
Lemma build_edges ti :
  (build_dependency_graph ti).2
  = flat_map (λ '(path, info),
      (import_edge (build_nodes ti) path <$> imports info)
      ++ ((λ dyn, (path, dyn, dyn, "dynamic")) <$> dynamics info))%list ti.
Proof.
  unfold build_dependency_graph. cbn [snd]. generalize (build_nodes ti) as nodes.
  intros nodes.
  cut (∀ acc, foldl (λ edges '(path, info), template_edges nodes path info edges) acc ti
              = (acc ++ flat_map (λ '(path, info),
                   (import_edge nodes path <$> imports info)
                   ++ ((λ dyn, (path, dyn, dyn, "dynamic")) <$> dynamics info))%list ti)%list).
  { intros H. by rewrite H. }
  induction ti as [|[p i] ti IH]; intros acc; cbn [foldl flat_map].
  - by rewrite (right_id_L [] (++)).
  - by rewrite IH, template_edges_app, <-!(assoc_L (++)).
Qed.

Lemma flat_map_cons_eq {A B} (f : A → list B) x l :
  flat_map f (x :: l) = (f x ++ flat_map f l)%list.
Proof. reflexivity. Qed.

Lemma filter_none {A} (P : A → Prop) `{∀ x, Decision (P x)} (l : list A) :
  (∀ x, x ∈ l → ¬ P x) → filter P l = [].
Proof.
  induction l as [|x l IH]; [done|]. intros Hl.
  rewrite filter_cons_False by (apply Hl; by left). apply IH. intros; apply Hl; by right.
Qed.

Lemma filter_import_edges nodes path imp imps :
  NoDup imps → imp ∈ imps →
  filter (is_import_of path imp) (import_edge nodes path <$> imps)
  = [import_edge nodes path imp].
Proof.
  induction 1 as [|x imps Hx Hnd IH]; [by intros ?%elem_of_nil|].
  cbn [fmap list_fmap]. intros [->|Hin]%elem_of_cons.
  - rewrite filter_cons_True by done. f_equal.
    clear IH Hnd. induction imps as [|y imps IH]; [done|].
    cbn [fmap list_fmap]. apply not_elem_of_cons in Hx as [Hne Hx].
    rewrite filter_cons_False; [by apply IH|].
    intros (_ & Hl & _). by cbn in Hl.
  - rewrite filter_cons_False; [by apply IH|].
    intros (_ & Hl & _). cbn in Hl. by subst.
Qed.

Lemma filter_dynamic_edges path imp (dyns : list string) :
  filter (is_import_of path imp) ((λ dyn, (path, dyn, dyn, "dynamic")) <$> dyns)
  = ([] : list edge).
Proof.
  induction dyns as [|d dyns IH]; [done|]. cbn [fmap list_fmap].
  rewrite filter_cons_False; [done|]. by intros (_ & _ & [=]).
Qed.

Lemma filter_other_templates nodes path imp
    (l : list (string * ScanResult (list string))) :
  path ∉ l.*1 →
  filter (is_import_of path imp)
    (flat_map (λ '(p, info),
       (import_edge nodes p <$> imports info)
       ++ ((λ dyn, (p, dyn, dyn, "dynamic")) <$> dynamics info))%list l)
  = [].
Proof.
  induction l as [|[p i] l IH]; [done|]. cbn [fmap list_fmap fst].
  intros [Hne Hl]%not_elem_of_cons. unfold edge in *.
  rewrite flat_map_cons_eq, filter_app, IH by done.
  rewrite (right_id_L [] (++)). apply filter_none.
  intros e He (Hsrc & _). apply Hne. rewrite <-Hsrc.
  apply elem_of_app in He as [(x & -> & _)%list_elem_of_fmap|(x & -> & _)%list_elem_of_fmap];
    done.
Qed.

(** C1: the producer index maps each exported name to the last template, in
    processing order, that exports it, and a name nobody exports to nothing;
    the import edges are, template by template, one for each name of its
    imports, in order, towards the producer found in the index or else
    towards [(unknown)]; so for a template and a name of its imports exactly
    one import edge leaves the template with that label.  The function is
    total: nothing in it can fail. *)
Theorem build_dependency_graph_spec ti :
  let nodes := (build_dependency_graph ti).1 in
  let edges := (build_dependency_graph ti).2 in
  (∀ name path,
     nodes !! name = Some path ↔
     ∃ l1 info l2, ti = (l1 ++ (path, info) :: l2)%list ∧ name ∈ exports info ∧
                   ∀ doc, doc ∈ l2 → name ∉ exports doc.2) ∧
  (∀ name, nodes !! name = None ↔ ∀ doc, doc ∈ ti → name ∉ exports doc.2) ∧
  filter (λ e, edge_kind e = "import") edges
    = flat_map (λ '(path, info),
        (λ imp, (path, default "(unknown)" (nodes !! imp), imp, "import")) <$> imports info) ti ∧
  (∀ path info imp,
     NoDup ti.*1 → (path, info) ∈ ti → NoDup (imports info) → imp ∈ imports info →
     filter (is_import_of path imp) edges
     = [(path, default "(unknown)" (nodes !! imp), imp, "import")]).
Proof.
  cbn zeta. rewrite build_edges. cbn [build_dependency_graph fst]. unfold edge in *.
  split; [|split; [|split]].
  - intros name path. by rewrite build_nodes_lookup, last_exporter_Some.
  - intros name. by rewrite build_nodes_lookup, last_exporter_None.
  - generalize (build_nodes ti) as nodes. intros nodes.
    induction ti as [|[p i] ti IH]; [done|].
    rewrite !flat_map_cons_eq, filter_app, IH, filter_app. f_equal.
    rewrite (filter_none _ (_ <$> dynamics i))
      by by intros e (x & -> & _)%list_elem_of_fmap.
    rewrite (right_id_L [] (++)).
    induction (imports i) as [|imp imps IHi]; [done|]. cbn [fmap list_fmap].
    rewrite filter_cons_True by done. by rewrite IHi.
  - intros path info imp Hnd Hin Hndi Himp.
    apply list_elem_of_split in Hin as (l1 & l2 & ->).
    rewrite fmap_app in Hnd. cbn [fmap list_fmap fst] in Hnd.
    apply NoDup_app in Hnd as (_ & Hl1 & [Hl2 _]%NoDup_cons).
    rewrite flat_map_app, flat_map_cons_eq, !filter_app.
    rewrite !filter_other_templates, filter_dynamic_edges, filter_import_edges; try done.
    intros ?. eapply Hl1; [done|by left].
Qed.

Lemma build_dependency_graph_spec_witness :
  (build_dependency_graph three_templates).1 !! "Export1" = Some "t3.yaml" ∧
  filter (is_import_of "t2.yaml" "Export1") (build_dependency_graph three_templates).2
  = [("t2.yaml", "t3.yaml", "Export1", "import")] ∧
  filter (is_import_of "t2.yaml" "Missing") (build_dependency_graph three_templates).2
  = [("t2.yaml", "(unknown)", "Missing", "import")].
Proof.
  destruct (build_dependency_graph_spec three_templates) as (H1 & _ & _ & H4).
  assert (NoDup three_templates.*1) as Hnd
    by (apply (bool_decide_unpack (NoDup three_templates.*1)); exact I).
  assert (NoDup ["Export1"; "Missing"]) as Hndi
    by (apply (bool_decide_unpack (NoDup ["Export1"; "Missing"])); exact I).
  assert ((build_dependency_graph three_templates).1 !! "Export1" = Some "t3.yaml") as E1.
  { apply H1. exists [("t1.yaml", t1_info); ("t2.yaml", t2_info)], t3_info, [].
    split; [done|]. split; [set_solver|]. by intros doc ?%elem_of_nil. }
  assert ((build_dependency_graph three_templates).1 !! "Missing" = None) as E2.
  { apply build_dependency_graph_spec. intros doc Hdoc.
    repeat (apply elem_of_cons in Hdoc as [->|Hdoc]); [set_solver..|by apply elem_of_nil in Hdoc]. }
  split; [done|]. split.
  - rewrite (H4 "t2.yaml" t2_info "Export1" Hnd); [by rewrite E1| |done|]; set_solver.
  - rewrite (H4 "t2.yaml" t2_info "Missing" Hnd); [by rewrite E2| |done|]; set_solver.
Defined.

(** ** The model of [re] on samples run through Python's *)

Example findall_samples :
  Re.findall DYNAMIC_REF_PATTERN "a{{resolve:ssm:x}}b{{resolve:y}}}{{resolve:"
    = ["{{resolve:ssm:x}}"; "{{resolve:y}}"] ∧
  Re.findall DYNAMIC_REF_PATTERN "{{resolve:{{resolve:x}}" = ["{{resolve:{{resolve:x}}"] ∧
  Re.findall DYNAMIC_REF_PATTERN "{{resolve:a}}}" = ["{{resolve:a}}"] ∧
  Re.findall DYNAMIC_REF_PATTERN ("{{resolve:ssm:/app/key" ++ newline ++ "}}") = [].
Proof. vm_compute. done. Qed.

Example fullmatch_samples :
  strict_marker_at "{{resolve:ssm:a}}b}}" = Some ("ssm", "a}}b") ∧
  strict_marker_at "{{resolve:ssm-secure:MyParam:1}}" = Some ("ssm-secure", "MyParam:1") ∧
  strict_marker_at "{{resolve:ssm:ssm-secure:x}}" = Some ("ssm", "ssm-secure:x") ∧
  strict_marker_at "{{resolve:secretsmanager:x}}" = Some ("secretsmanager", "x") ∧
  strict_marker_at "{{resolve:ssm:}}" = None ∧
  strict_marker_at "{{resolve:foo:x}}" = None ∧
  Re.fullmatch DYN_NODE_PATTERN ("{{resolve:ssm:a" ++ newline ++ "b}}") = None ∧
  Re.group (default ∅ (Re.fullmatch DYN_NODE_PATTERN "{{resolve:ssm:a}}b}}")) 2 = "a}}b".
Proof. vm_compute. done. Qed.

Example normalize_samples :
  normalize_dynamic_node "${}x${a-b}${a_1}{{${ab" = "$x$a-b$a_1$ab" ∧
  normalize_dynamic_node "${a${b}}" = "$a$b" ∧
  normalize_dynamic_node "${MySecret}:SecretString:${username}"
    = "$MySecret:SecretString:$username".
Proof. vm_compute. done. Qed.

(** ** The tests of the repository, on the model *)

Example test_find_imports :
  ∃ s, find_imports test_find_imports_obj ∅ = Ok s ∧ AStr "MyExport" ∈ s.
Proof.
  eexists. split; [by apply find_imports_ok|].
  assert (import_values test_find_imports_obj = [VStr "MyExport"; VStr "MyExport"]) as ->
    by done.
  cbn. set_solver.
Qed.

Example test_extract_exports_and_imports_basic :
  ∃ r, extract_exports_and_imports test_basic_doc = Ok r ∧
       AStr "MyExport" ∈ exports r ∧ AStr "MyExport" ∈ imports r.
Proof.
  eexists. split; [by apply extract_ok|]. cbn [exports imports].
  assert (export_names test_basic_doc = [VStr "MyExport"]) as -> by done.
  assert (import_values test_basic_doc = [VStr "MyExport"]) as -> by done.
  rewrite filter_cons_True, filter_nil by done. cbn. set_solver.
Qed.

Example test_extract_exports_and_imports_no_outputs :
  ∃ r, extract_exports_and_imports test_no_outputs_doc = Ok r ∧
       exports r = ∅ ∧ imports r = ∅.
Proof.
  eexists. split; [by apply extract_ok|]. cbn [exports imports].
  assert (export_names test_no_outputs_doc = []) as -> by done.
  assert (import_values test_no_outputs_doc = []) as -> by done.
  rewrite filter_nil. cbn. set_solver.
Qed.

Example test_extract_exports_and_imports_dynamic_reference :
  ∃ r, extract_exports_and_imports dynamic_doc = Ok r ∧
       AStr "{{resolve:ssm-secure:MyParam:1}}" ∈ dynamics r ∧
       AStr "{{resolve:ssm:TagParam:latest}}" ∈ dynamics r.
Proof.
  eexists. split; [by apply extract_ok|]. cbn [dynamics].
  rewrite dynamic_doc_markers. cbn. set_solver.
Qed.

Example test_build_dependency_graph :
  (build_dependency_graph test_template_info).1 !! "Export1" = Some "template1.yaml" ∧
  (build_dependency_graph test_template_info).1 !! "Export2" = Some "template2.yaml" ∧
  (build_dependency_graph test_template_info).2 =
    [("template2.yaml", "template1.yaml", "Export1", "import");
     ("template3.yaml", "template2.yaml", "Export2", "import")].
Proof.
  cbn [build_dependency_graph fst]. rewrite !build_nodes_lookup.
  split; [done|]. split; [done|]. rewrite build_edges.
  unfold import_edge, import_target. cbn [test_template_info flat_map imports dynamics fmap list_fmap app].
  by rewrite !build_nodes_lookup.
Qed.

Example test_generate_mermaid_text_dynamic_reference :
  mermaid_text test_dynamic_edges "LR" =
    "# CFn template dependency" ++ newline ++ newline ++ "```mermaid" ++ newline ++
    "graph LR" ++ newline ++
    "    dynamic.yaml-->|ssm-secure|MyParam:1[(MyParam:1)]" ++ newline ++
    "    dynamic.yaml-->|ssm|TagParam:latest[(TagParam:latest)]" ++ newline ++
    "```" ++ newline.
Proof. vm_compute. reflexivity. Qed.

Example test_find_cfn_templates : find_cfn_templates test_tree = [["a.yaml"]].
Proof. vm_compute. reflexivity. Qed.

(** The scenario of section 8 of the specification: the payload
    [MySecret}:SecretString:${username}]. *)
Example normalize_scenario :
  normalize_dynamic_node "MySecret}:SecretString:${username}"
  = "MySecret:SecretString:$username".
Proof. vm_compute. reflexivity. Qed.

Example path_names :
  path_name "stacks/network.yaml" = "network.yaml" ∧ path_name "a/b/" = "b" ∧
  path_name "./x//y.yaml" = "y.yaml" ∧ path_name "/" = "" ∧ path_name "a/." = "a" ∧
  path_name "a/.." = ".." ∧ path_name "." = "" ∧ path_name "(unknown)" = "(unknown)".
Proof. vm_compute. done. Qed.

(** * Further properties of the code *)

(** ** Scanner: error behaviour *)

Lemma forallb_false_elem {A} (f : A → bool) l :
  forallb f l = false → ∃ x, x ∈ l ∧ f x = false.
Proof.
  induction l as [|x l IH]; [done|]. cbn [forallb].
  destruct (f x) eqn:E; cbn [andb].
  - intros (y & ? & ?)%IH. exists y. split; [by right|done].
  - intros _. exists x. split; [by left|done].
Qed.

(** X1: [find_imports] either raises [TypeError], exactly when some value
    keyed by [Fn::ImportValue] in the document is a list or a dict, or returns
    the set it was given with the keyed scalars added and nothing else. *)
Theorem find_imports_outcome D acc :
  match find_imports D acc with
  | Ok s =>
      (∀ v, import_value_in D v → ∃ a, hash_key v = Some a) ∧
      (∀ a, a ∈ s ↔ a ∈ acc ∨ ∃ v, import_value_in D v ∧ hash_key v = Some a)
  | Raise e =>
      e = TypeError ∧ ∃ v, import_value_in D v ∧ hash_key v = None
  end.
Proof.
  destruct (forallb hashable (import_values D)) eqn:H.
  - rewrite find_imports_ok by done. split; [by apply import_values_hashable|].
    intros a. rewrite elem_of_union, elem_of_list_to_set, list_elem_of_omap.
    split; (intros [?|(v & Hv & ?)]; [by left|right; exists v]);
      by rewrite ?import_values_spec in *.
  - rewrite find_imports_raise by done. split; [done|].
    destruct (forallb_false_elem _ _ H) as (v & Hv%import_values_spec & Hh).
    exists v. split; [done|]. unfold hashable in Hh. by destruct (hash_key v).
Qed.

(** X2: on a document that is a mapping, the export scan succeeds exactly
    when [Outputs] is absent or is a mapping of mappings whose [Export]
    entries are mappings and whose truthy [Export.Name] values are scalars;
    every other shape raises. *)
Theorem scan_exports_outcome items :
  match scan_exports (VDict items) with
  | Ok s =>
      outputs_well_shaped (VDict items) = true ∧
      s = list_to_set (omap hash_key
            (filter (λ v, truthy v = true) (export_names (VDict items))))
  | Raise _ => outputs_well_shaped (VDict items) = false
  end.
Proof.
  destruct (outputs_well_shaped (VDict items)) eqn:H.
  - by rewrite scan_exports_ok.
  - by destruct (scan_exports_raise items H) as [e ->].
Qed.

(** X3: on a document that is not a mapping, the export scan tests
    ["Outputs" in parsed_data] as Python does: a scalar other than a string
    raises [TypeError]; a list holding the string [Outputs], or a string
    containing it, raises [AttributeError]; any other list or string gives no
    exports. *)
Theorem scan_exports_not_mapping D :
  match D with
  | VDict _ => True
  | VList l =>
      (VStr "Outputs" ∈ l → scan_exports D = Raise AttributeError) ∧
      (VStr "Outputs" ∉ l → scan_exports D = Ok ∅)
  | VStr s =>
      scan_exports D = if Str.contains "Outputs" s then Raise AttributeError else Ok ∅
  | _ => scan_exports D = Raise TypeError
  end.
Proof.
  destruct D as [ | | | |s|l|items]; try done.
  unfold scan_exports. cbn [contains mbind result_bind].
  assert (existsb (λ v, match v with VStr s => String.eqb s "Outputs" | _ => false end) l
          = true ↔ VStr "Outputs" ∈ l) as H.
  { rewrite existsb_exists. split.
    - intros (x & Hx%list_elem_of_In & E). destruct x as [ | | | |s| | ]; try done.
      by apply String.eqb_eq in E as ->.
    - intros H. exists (VStr "Outputs"). by rewrite <-list_elem_of_In. }
  destruct (existsb _ l).
  - split; [done|]. intros Hn. destruct Hn. by apply H.
  - split; [|done]. intros Hin%H. done.
Qed.

(** ** Scanner: where the dynamics come from *)

Lemma markers_of_substring cs s ms m :
  markers_of cs s ms → m ∈ ms → ∃ pre post, s = pre ++ m ++ post.
Proof.
  induction 1 as [|p rest ms Hp _ IH|a s ms _ _ IH]; [by intros ?%elem_of_nil| |].
  - intros [->|Hm]%elem_of_cons.
    + exists "", rest. by rewrite !str_app_assoc.
    + destruct (IH Hm) as (pre & post & ->).
      exists ("{{resolve:" ++ p ++ "}}" ++ pre), post. by rewrite !str_app_assoc.
  - intros (pre & post & ->)%IH. by exists (String a pre), post.
Qed.

(** X4: every dynamic reference of a ScanResult occurs verbatim inside a
    string value of the document, as [{{resolve:] followed by a payload
    without line feed that the first [}}] closes; the keys of mappings are
    never read. *)
Theorem dynamics_are_substrings D r a :
  extract_exports_and_imports D = Ok r → a ∈ dynamics r →
  ∃ s pre p post,
    s ∈ string_scalars D ∧ a = AStr ("{{resolve:" ++ p ++ "}}") ∧
    s = pre ++ ("{{resolve:" ++ p ++ "}}") ++ post ∧ payload_ok Re.dot p = true.
Proof.
  intros Hr Ha. rewrite (extract_dynamics _ _ Hr) in Ha.
  apply find_dynamic_references_markers in Ha as (s & ms & m & Hs & Hms & Hm & ->).
  destruct (markers_of_shape _ _ _ _ Hms Hm) as (p & Hp & ->).
  destruct (markers_of_substring _ _ _ _ Hms Hm) as (pre & post & ->).
  by exists (pre ++ ("{{resolve:" ++ p ++ "}}") ++ post), pre, p, post.
Qed.

Lemma dynamics_are_substrings_witness :
  ∃ r, extract_exports_and_imports keyed_marker_doc = Ok r ∧
       (AStr "{{resolve:ssm:InAKey}}" ∉ dynamics r) ∧
       ∃ s pre p post,
         s ∈ string_scalars keyed_marker_doc ∧
         AStr "{{resolve:ssm:/db/host}}" = AStr ("{{resolve:" ++ p ++ "}}") ∧
         s = pre ++ ("{{resolve:" ++ p ++ "}}") ++ post ∧ payload_ok Re.dot p = true.
Proof.
  assert (found_markers keyed_marker_doc = ["{{resolve:ssm:/db/host}}"]) as E
    by (vm_compute; reflexivity).
  eexists. split; [by apply extract_ok|]. split.
  - cbn [dynamics]. rewrite E. cbn. set_solver.
  - apply (dynamics_are_substrings keyed_marker_doc _ _
             (extract_ok keyed_marker_doc eq_refl eq_refl)).
    cbn [dynamics]. rewrite E. cbn. set_solver.
Defined.

(** ** Normalization of node names *)

Lemma without_braces_clean s : forall_chars not_brace (without_braces s) = true.
Proof.
  induction s as [|a s IH]; [done|]. cbn [without_braces].
  destruct (Ascii.eqb a "{" || Ascii.eqb a "}") eqn:E; [done|].
  cbn [forall_chars]. unfold not_brace at 1. by rewrite E, IH.
Qed.

Lemma without_braces_id s : forall_chars not_brace s = true → without_braces s = s.
Proof.
  induction s as [|a s IH]; [done|]. cbn [forall_chars without_braces].
  unfold not_brace at 1. intros [Ha Hs]%andb_true_iff.
  apply negb_true_iff in Ha as ->. by rewrite IH.
Qed.

(** X5: the substitution of [${Var}] in [normalize_dynamic_node] has no
    effect of its own: the result is the node with every brace deleted and
    every other character kept in place.  So the result holds no brace, a
    node without braces is returned unchanged, normalizing twice changes
    nothing more, and the normal form of a concatenation is the concatenation
    of the normal forms. *)
Theorem normalize_dynamic_node_deletes_braces node :
  normalize_dynamic_node node = without_braces node ∧
  forall_chars not_brace (normalize_dynamic_node node) = true ∧
  (forall_chars not_brace node = true → normalize_dynamic_node node = node) ∧
  normalize_dynamic_node (normalize_dynamic_node node) = normalize_dynamic_node node ∧
  (∀ node', normalize_dynamic_node (node ++ node')
            = normalize_dynamic_node node ++ normalize_dynamic_node node').
Proof.
  rewrite !normalize_dynamic_node_braces. split; [done|].
  split; [apply without_braces_clean|]. split; [apply without_braces_id|]. split.
  - apply without_braces_id, without_braces_clean.
  - intros node'. by rewrite !normalize_dynamic_node_braces, without_braces_app.
Qed.

(** ** Rendering of the markers the scanner finds *)

Lemma forall_chars_app cs s t :
  forall_chars cs (s ++ t) = forall_chars cs s && forall_chars cs t.
Proof.
  induction s as [|a s IH]; [done|]. rewrite str_app_cons. cbn [forall_chars].
  by rewrite IH, andb_assoc.
Qed.

Lemma str_app_inj_r (s s' t : string) : s ++ t = s' ++ t → s = s'.
Proof.
  revert s'; induction s as [|a s IH]; intros [|b s'] E.
  - done.
  - apply (f_equal String.length) in E. rewrite !str_length_app in E.
    cbn [String.length] in E. lia.
  - apply (f_equal String.length) in E. rewrite !str_length_app in E.
    cbn [String.length] in E. lia.
  - rewrite !str_app_cons in E. injection E as -> E. f_equal. by apply IH.
Qed.

(** X6: a marker [{{resolve:<payload>}}] whose payload holds no line feed,
    as the scanner yields them, is drawn with the service tag as label and
    the rest of the payload, braces deleted, as node when the payload is one
    of [ssm], [ssm-secure], [secretsmanager], a colon and a non-empty rest;
    in every other case (another service, no colon, nothing after the colon)
    the label is [dynamic] and the node is [resolve:] followed by the payload
    with its braces deleted. *)
Theorem scanned_marker_rendering p :
  forall_chars Re.dot p = true →
  (∀ tag q, tag ∈ ["ssm"; "ssm-secure"; "secretsmanager"] → q ≠ "" → p = tag ++ ":" ++ q →
     dynamic_label_node ("{{resolve:" ++ p ++ "}}") = (tag, without_braces q)) ∧
  ((∀ tag q, tag ∈ ["ssm"; "ssm-secure"; "secretsmanager"] → q ≠ "" → p ≠ tag ++ ":" ++ q) →
     dynamic_label_node ("{{resolve:" ++ p ++ "}}") = ("dynamic", "resolve:" ++ without_braces p)).
Proof.
  intros Hp. split.
  - intros tag q Htag Hq ->. rewrite dynamic_label_node_spec.
    rewrite !forall_chars_app in Hp. apply andb_true_iff in Hp as [_ [_ Hq']%andb_true_iff].
    assert (strict_marker ("{{resolve:" ++ (tag ++ ":" ++ q) ++ "}}") tag q) as H.
    { split; [done|]. split; [done|]. split; [done|]. by rewrite !str_app_assoc. }
    apply strict_marker_at_spec in H as ->. by rewrite normalize_dynamic_node_braces.
  - intros Hno. rewrite dynamic_label_node_spec.
    destruct (strict_marker_at _) as [[tag q]|] eqn:E.
    + apply strict_marker_at_spec in E as (Htag & Hq & _ & E).
      destruct (Hno tag q Htag Hq). apply (str_app_inj_r _ _ "}}").
      apply (inj (String.append "{{resolve:")). by rewrite E, !str_app_assoc.
    + rewrite normalize_dynamic_node_braces, !without_braces_app.
      change (without_braces "{{resolve:") with "resolve:".
      change (without_braces "}}") with "". by rewrite str_app_nil_r.
Qed.

Lemma scanned_marker_rendering_witness :
  dynamic_label_node ("{{resolve:" ++ "ssm-secure:/db/${Env}/pw" ++ "}}")
    = ("ssm-secure", without_braces "/db/${Env}/pw") ∧
  dynamic_label_node ("{{resolve:" ++ "kms:alias/key" ++ "}}")
    = ("dynamic", "resolve:" ++ without_braces "kms:alias/key").
Proof.
  split.
  - apply (scanned_marker_rendering "ssm-secure:/db/${Env}/pw" eq_refl);
      [set_solver|done|reflexivity].
  - apply (scanned_marker_rendering "kms:alias/key" eq_refl).
    intros tag q Htag _ E. repeat (apply elem_of_cons in Htag as [->|Htag]);
      [by str_norm..|by apply elem_of_nil in Htag].
Defined.

(** ** Builder: the edges, one by one *)

Lemma elem_of_flat_map {A B} (f : A → list B) l y :
  y ∈ flat_map f l ↔ ∃ x, x ∈ l ∧ y ∈ f x.
Proof.
  rewrite list_elem_of_In, in_flat_map. split; intros (x & H1 & H2); exists x.
  - by rewrite !list_elem_of_In.
  - by rewrite <-!list_elem_of_In.
Qed.

Lemma elem_of_edges ti e :
  e ∈ (build_dependency_graph ti).2 ↔
  ∃ path info, (path, info) ∈ ti ∧
    ((∃ imp, imp ∈ imports info ∧ e = import_edge (build_nodes ti) path imp) ∨
     (∃ dyn, dyn ∈ dynamics info ∧ e = (path, dyn, dyn, "dynamic"))).
Proof.
  rewrite build_edges, elem_of_flat_map. split.
  - intros ([path info] & Hin & [H|H]%elem_of_app); exists path, info; (split; [done|]).
    + left. apply list_elem_of_fmap in H as (imp & -> & ?). eauto.
    + right. apply list_elem_of_fmap in H as (dyn & -> & ?). eauto.
  - intros (path & info & Hin & [(imp & ? & ->)|(dyn & ? & ->)]);
      exists (path, info); (split; [done|]); apply elem_of_app; [left|right];
      apply list_elem_of_fmap; eauto.
Qed.

(** X7: the builder adds one edge for each import and one for each dynamic
    reference of each template, and nothing else: every edge is of kind
    [import] or [dynamic], their number is the number of imports plus the
    number of dynamic references over all templates, and the dynamic edges
    are, template by template and in order, one for each dynamic reference,
    from the template to the reference itself, which is also the label. *)
Theorem build_dependency_graph_edges ti :
  let edges := (build_dependency_graph ti).2 in
  (∀ e, e ∈ edges → edge_kind e = "import" ∨ edge_kind e = "dynamic") ∧
  length edges = sum_list ((λ d, length (imports d.2) + length (dynamics d.2)) <$> ti) ∧
  filter (λ e, edge_kind e = "dynamic") edges
    = flat_map (λ '(path, info), (λ dyn, (path, dyn, dyn, "dynamic")) <$> dynamics info) ti.
Proof.
  cbn zeta. split; [|split].
  - intros e (path & info & _ & [(imp & _ & ->)|(dyn & _ & ->)])%elem_of_edges;
      [by left|by right].
  - rewrite build_edges. generalize (build_nodes ti) as nodes. intros nodes.
    induction ti as [|[p i] ti IH]; [done|].
    rewrite flat_map_cons_eq, !length_app, !length_fmap, IH. done.
  - rewrite build_edges. unfold edge in *. generalize (build_nodes ti) as nodes. intros nodes.
    induction ti as [|[p i] ti IH]; [done|].
    rewrite !flat_map_cons_eq, filter_app, IH, filter_app. f_equal.
    rewrite (filter_none _ (_ <$> imports i))
      by by intros e (x & -> & _)%list_elem_of_fmap.
    cbn [app]. induction (dynamics i) as [|dyn dyns IHd]; [done|]. cbn [fmap list_fmap].
    rewrite filter_cons_True by done. by rewrite IHd.
Qed.

(** X8: an import edge never names a producer that does not export the
    name: its source is a template that imports the label, and its target is
    either a template that exports the label or, when no template exports
    it, the sentinel [(unknown)]. *)
Theorem import_edge_sound ti e :
  e ∈ (build_dependency_graph ti).2 → edge_kind e = "import" →
  (∃ info, (edge_src e, info) ∈ ti ∧ edge_label e ∈ imports info) ∧
  ((∃ info, (edge_dst e, info) ∈ ti ∧ edge_label e ∈ exports info) ∨
   (edge_dst e = "(unknown)" ∧ ∀ doc, doc ∈ ti → edge_label e ∉ exports doc.2)).
Proof.
  intros (path & info & Hin & [(imp & Himp & ->)|(dyn & _ & ->)])%elem_of_edges; [|done].
  intros _. split; [by exists info|].
  unfold import_edge, import_target, edge_dst, edge_label. cbn [fst snd].
  rewrite build_nodes_lookup. destruct (last_exporter ti imp) as [q|] eqn:E.
  - left. apply last_exporter_Some in E as (l1 & info' & l2 & -> & ? & _).
    exists info'. split; [|done]. apply elem_of_app. right. by left.
  - right. split; [done|]. by apply last_exporter_None.
Qed.

Lemma import_edge_sound_witness :
  (∃ info, ("t2.yaml", info) ∈ three_templates ∧ "Export1" ∈ imports info) ∧
  ((∃ info, ("t3.yaml", info) ∈ three_templates ∧ "Export1" ∈ exports info) ∨
   ("t3.yaml" = "(unknown)" ∧ ∀ doc, doc ∈ three_templates → "Export1" ∉ exports doc.2)).
Proof.
  apply (import_edge_sound three_templates ("t2.yaml", "t3.yaml", "Export1", "import"));
    [|reflexivity].
  apply list_elem_of_In. vm_compute. tauto.
Defined.

(** ** Builder: the order of iteration *)

Lemma edges_Permutation nodes (ti ti' : list (string * ScanResult (list string))) :
  Forall2 same_collections ti ti' →
  flat_map (λ '(path, info),
      (import_edge nodes path <$> imports info)
      ++ ((λ dyn, (path, dyn, dyn, "dynamic")) <$> dynamics info))%list ti
  ≡ₚ flat_map (λ '(path, info),
      (import_edge nodes path <$> imports info)
      ++ ((λ dyn, (path, dyn, dyn, "dynamic")) <$> dynamics info))%list ti'.
Proof.
  induction 1 as [|[p i] [p' i'] ti ti' (Hp & _ & Hi & Hd) _ IH]; [done|].
  cbn [fst snd] in *. subst p'. rewrite !flat_map_cons_eq.
  by rewrite IH, Hi, Hd.
Qed.

Lemma last_exporter_collections ti ti' name :
  Forall2 same_collections ti ti' → last_exporter ti name = last_exporter ti' name.
Proof.
  induction 1 as [|[p i] [p' i'] ti ti' (Hp & He & _) _ IH]; [done|].
  cbn [fst snd last_exporter] in *. subst p'. rewrite IH.
  destruct (last_exporter ti' name); [done|].
  destruct (decide (name ∈ exports i)) as [H|H];
    [rewrite decide_True|rewrite decide_False]; by rewrite <-?He.
Qed.

(** X9: the order in which the sets of a template are iterated does not
    show in the result: when two inputs hold the same templates in the same
    order and each template's exports, imports and dynamics are the same up
    to order, the index of producers is the same, the edges are the same up
    to order, and the diagram text is the same. *)
Theorem collection_order_irrelevant ti ti' direction :
  Forall2 same_collections ti ti' →
  (build_dependency_graph ti).1 = (build_dependency_graph ti').1 ∧
  (build_dependency_graph ti).2 ≡ₚ (build_dependency_graph ti').2 ∧
  mermaid_text (build_dependency_graph ti).2 direction
    = mermaid_text (build_dependency_graph ti').2 direction.
Proof.
  intros H.
  assert (build_nodes ti = build_nodes ti') as Hn.
  { apply map_eq. intros name. rewrite !build_nodes_lookup.
    by apply last_exporter_collections. }
  assert ((build_dependency_graph ti).2 ≡ₚ (build_dependency_graph ti').2) as He.
  { rewrite !build_edges, Hn. by apply edges_Permutation. }
  split; [done|]. split; [done|].
  unfold mermaid_text.
  by rewrite (sorted_lines_unique (edge_line <$> (build_dependency_graph ti).2)
                (edge_line <$> (build_dependency_graph ti').2)) by by rewrite He.
Qed.

Lemma collection_order_irrelevant_witness :
  (build_dependency_graph three_templates).1
    = (build_dependency_graph three_templates_reordered).1 ∧
  (build_dependency_graph three_templates).2
    ≡ₚ (build_dependency_graph three_templates_reordered).2 ∧
  mermaid_text (build_dependency_graph three_templates).2 "LR"
    = mermaid_text (build_dependency_graph three_templates_reordered).2 "LR".
Proof.
  apply (collection_order_irrelevant three_templates three_templates_reordered "LR").
  repeat constructor.
Defined.

Lemma exports_unique_exporter ti name p :
  exports_unique ti →
  last_exporter ti name = Some p ↔ ∃ info, (p, info) ∈ ti ∧ name ∈ exports info.
Proof.
  intros Hu. split.
  - intros (l1 & info & l2 & -> & ? & _)%last_exporter_Some.
    exists info. split; [|done]. apply elem_of_app. right. by left.
  - intros (info & Hin & Hname).
    destruct (last_exporter ti name) as [q|] eqn:E.
    + apply last_exporter_Some in E as (l1 & info' & l2 & -> & ? & _). f_equal.
      apply (Hu (q, info') (p, info) name); [|done..].
      apply elem_of_app. right. by left.
    + destruct (proj1 (last_exporter_None ti name) E (p, info) Hin). done.
Qed.

(** X10: when no two templates export the same name, the order of the
    templates does not show in the result either: a permutation of the
    templates gives the same index of producers, the same edges up to order,
    and the same diagram text.  (With a name exported twice the later
    template wins, so there the order does count.) *)
Theorem template_order_irrelevant ti ti' direction :
  exports_unique ti → ti ≡ₚ ti' →
  (build_dependency_graph ti).1 = (build_dependency_graph ti').1 ∧
  (build_dependency_graph ti).2 ≡ₚ (build_dependency_graph ti').2 ∧
  mermaid_text (build_dependency_graph ti).2 direction
    = mermaid_text (build_dependency_graph ti').2 direction.
Proof.
  intros Hu Hp.
  assert (exports_unique ti') as Hu'.
  { intros d1 d2 name H1 H2. apply Hu; by rewrite Hp. }
  assert (build_nodes ti = build_nodes ti') as Hn.
  { apply map_eq. intros name. rewrite !build_nodes_lookup.
    apply option_eq. intros p. rewrite !exports_unique_exporter by done.
    by setoid_rewrite Hp. }
  assert ((build_dependency_graph ti).2 ≡ₚ (build_dependency_graph ti').2) as He.
  { rewrite !build_edges, Hn. apply Permutation_flat_map, Hp. }
  split; [done|]. split; [done|].
  unfold mermaid_text.
  by rewrite (sorted_lines_unique (edge_line <$> (build_dependency_graph ti).2)
                (edge_line <$> (build_dependency_graph ti').2)) by by rewrite He.
Qed.

Lemma template_order_irrelevant_witness :
  (build_dependency_graph two_templates).1 = (build_dependency_graph two_templates_swapped).1 ∧
  (build_dependency_graph two_templates).2 ≡ₚ (build_dependency_graph two_templates_swapped).2 ∧
  mermaid_text (build_dependency_graph two_templates).2 "LR"
    = mermaid_text (build_dependency_graph two_templates_swapped).2 "LR".
Proof.
  apply (template_order_irrelevant two_templates two_templates_swapped "LR").
  - intros d1 d2 name H1 H2.
    repeat (apply elem_of_cons in H1 as [->|H1]); [| |by apply elem_of_nil in H1];
      (repeat (apply elem_of_cons in H2 as [->|H2]); [| |by apply elem_of_nil in H2]);
      cbn [fst snd exports]; set_solver.
  - apply perm_swap.
Defined.

(** ** Self references *)

Lemma warn_imports_frame path (exps imps : list string) w :
  let w' := foldl (λ w imp,
              if decide (imp ∈ exps) then print_stderr (self_reference_warning path imp) w
              else w) w imps in
  open_w w' = open_w w ∧ files w' = files w ∧ stdout w' = stdout w ∧
  stderr w' = (stderr w ++ (self_reference_warning path <$> filter (λ imp, imp ∈ exps) imps))%list.
Proof.
  cbn zeta. revert w; induction imps as [|imp imps IH]; intros w; cbn [foldl].
  - rewrite filter_nil, fmap_nil. by rewrite (right_id_L [] (++)).
  - destruct (IH (if decide (imp ∈ exps)
                  then print_stderr (self_reference_warning path imp) w else w))
      as (-> & -> & -> & ->).
    destruct (decide (imp ∈ exps)) as [H|H].
    + rewrite filter_cons_True by done. cbn [print_stderr open_w files stdout stderr fmap list_fmap].
      by rewrite <-(assoc_L (++)).
    + by rewrite filter_cons_False by done.
Qed.

Lemma check_self_reference_frame ti w :
  open_w (check_self_reference ti w) = open_w w ∧
  files (check_self_reference ti w) = files w ∧
  stdout (check_self_reference ti w) = stdout w ∧
  stderr (check_self_reference ti w) = (stderr w ++
    flat_map (λ '(path, info), self_reference_warning path <$> self_references info) ti)%list.
Proof.
  unfold check_self_reference.
  revert w; induction ti as [|[p i] ti IH]; intros w; cbn [foldl].
  - cbn [flat_map]. by rewrite (right_id_L [] (++)).
  - destruct (warn_imports_frame p (exports i) (imports i) w) as (E1 & E2 & E3 & E4).
    cbn zeta in *.
    destruct (IH (foldl (λ w imp,
                    if decide (imp ∈ exports i)
                    then print_stderr (self_reference_warning p imp) w else w) w (imports i)))
      as (-> & -> & -> & ->).
    rewrite E1, E2, E3, E4, flat_map_cons_eq. unfold self_references at 2.
    by rewrite <-(assoc_L (++)).
Qed.

(** X11: [check_self_reference] writes to the diagnostic stream only: it
    appends, template by template and import by import in order, one warning
    that names the template path and the name for each import that is among
    the exports of the same template, and nothing for any other import; it
    never stops the run.  So the stream is left as it was exactly when no
    template imports a name that it exports. *)
Theorem check_self_reference_spec ti w :
  let w' := check_self_reference ti w in
  open_w w' = open_w w ∧ files w' = files w ∧ stdout w' = stdout w ∧
  stderr w' = (stderr w ++
    flat_map (λ '(path, info), self_reference_warning path <$> self_references info) ti)%list ∧
  (stderr w' = stderr w ↔
   ∀ path info imp, (path, info) ∈ ti → imp ∈ imports info → imp ∉ exports info).
Proof.
  cbn zeta. destruct (check_self_reference_frame ti w) as (H1 & H2 & H3 & H4).
  repeat (split; [done|]). rewrite H4. split.
  - intros E path info imp Hin Himp Hexp.
    apply (f_equal length) in E. rewrite length_app in E.
    assert (length (flat_map (λ '(path, info),
              self_reference_warning path <$> self_references info) ti) = 0) as E0 by lia.
    apply nil_length_inv in E0.
    assert (self_reference_warning path imp ∈
            flat_map (λ '(path, info),
              self_reference_warning path <$> self_references info) ti) as Hw.
    { apply elem_of_flat_map. exists (path, info). split; [done|].
      apply list_elem_of_fmap. exists imp. split; [done|].
      by apply list_elem_of_filter. }
    rewrite E0 in Hw. by apply elem_of_nil in Hw.
  - intros Hno. rewrite <-(right_id_L [] (++) (stderr w)) at 2. f_equal.
    clear H1 H2 H3 H4. induction ti as [|[p i] ti IH]; [done|]. rewrite flat_map_cons_eq.
    rewrite IH by (intros; eapply Hno; [by right|done]).
    unfold self_references. rewrite filter_none; [done|].
    intros imp Himp. apply (Hno p i); [by left|done].
Qed.

(** X12: a self reference that is warned about stays in the graph: when no
    two templates export the same name, a template that imports a name it
    exports has an import edge from itself to itself with that name, and the
    diagram has the line that joins its file name to itself. *)
Theorem self_reference_is_drawn ti path info imp direction :
  exports_unique ti → (path, info) ∈ ti → imp ∈ self_references info →
  (path, path, imp, "import") ∈ (build_dependency_graph ti).2 ∧
  ∃ lines, lines ≡ₚ edge_line <$> (build_dependency_graph ti).2 ∧
    "    " ++ short_name path ++ "-->|" ++ imp ++ "|" ++ short_name path ∈ lines ∧
    mermaid_text (build_dependency_graph ti).2 direction
    = Str.join newline
        (diagram_header :: graph_line direction :: lines ++ [diagram_footer])%list.
Proof.
  intros Hu Hin [Hexp Himp]%list_elem_of_filter.
  assert ((path, path, imp, "import") ∈ (build_dependency_graph ti).2) as He.
  { apply elem_of_edges. exists path, info. split; [done|]. left. exists imp. split; [done|].
    unfold import_edge, import_target. rewrite build_nodes_lookup.
    assert (last_exporter ti imp = Some path) as ->; [|done].
    apply exports_unique_exporter; [done|]. by exists info. }
  split; [done|].
  exists (merge_sort String.le (edge_line <$> (build_dependency_graph ti).2)).
  split; [apply merge_sort_Permutation|]. split; [|done].
  rewrite merge_sort_Permutation. apply list_elem_of_fmap.
  by exists (path, path, imp, "import").
Qed.

Lemma self_reference_is_drawn_witness :
  ("stacks/net.yaml", "stacks/net.yaml", "VpcId", "import")
    ∈ (build_dependency_graph self_importing).2 ∧
  ∃ lines, lines ≡ₚ edge_line <$> (build_dependency_graph self_importing).2 ∧
    "    " ++ short_name "stacks/net.yaml" ++ "-->|" ++ "VpcId" ++ "|"
      ++ short_name "stacks/net.yaml" ∈ lines ∧
    mermaid_text (build_dependency_graph self_importing).2 "LR"
    = Str.join newline
        (diagram_header :: graph_line "LR" :: lines ++ [diagram_footer])%list.
Proof.
  apply (self_reference_is_drawn self_importing "stacks/net.yaml"
           {| exports := ["VpcId"]; imports := ["VpcId"]; dynamics := [] |} "VpcId" "LR").
  - intros d1 d2 name H1 H2.
    apply elem_of_cons in H1 as [->|H1]; [|by apply elem_of_nil in H1].
    apply elem_of_cons in H2 as [->|H2]; [|by apply elem_of_nil in H2]. done.
  - by left.
  - apply list_elem_of_filter. split; by left.
Defined.

(** ** File names in the diagram *)

Lemma split_not_nil c s : Str.split c s ≠ [].
Proof.
  destruct s as [|a s]; cbn [Str.split]; [done|].
  destruct (Ascii.eqb a c); [done|]. by destruct (Str.split c s).
Qed.

Lemma split_app c s t :
  Str.split c (s ++ String c t) = (Str.split c s ++ Str.split c t)%list.
Proof.
  induction s as [|a s IH].
  - rewrite str_app_nil_l. cbn [Str.split]. by rewrite Ascii.eqb_refl.
  - rewrite str_app_cons. cbn [Str.split]. rewrite IH.
    destruct (Ascii.eqb a c); [done|].
    pose proof (split_not_nil c s). by destruct (Str.split c s).
Qed.

Lemma split_file_name n :
  forall_chars (λ c, negb (Ascii.eqb c "/")) n = true → Str.split "/" n = [n].
Proof.
  induction n as [|a n IH]; [done|]. cbn [forall_chars Str.split].
  intros [Ha Hn]%andb_true_iff. apply negb_true_iff in Ha as ->. by rewrite IH.
Qed.

Lemma path_name_file n : file_name n = true → path_name n = n.
Proof.
  unfold file_name, path_name.
  intros [[H1%negb_true_iff%String.eqb_neq H2%negb_true_iff%String.eqb_neq]%andb_true_iff
            H3]%andb_true_iff.
  rewrite split_file_name by done. by rewrite filter_cons_True by done.
Qed.

Lemma path_name_in_directory d n : file_name n = true → path_name (d ++ "/" ++ n) = n.
Proof.
  unfold file_name, path_name.
  intros [[H1%negb_true_iff%String.eqb_neq H2%negb_true_iff%String.eqb_neq]%andb_true_iff
            H3]%andb_true_iff.
  change ("/" ++ n) with (String "/" n). rewrite split_app, filter_app.
  rewrite (split_file_name n) by done. rewrite filter_cons_True by done.
  rewrite filter_nil. by rewrite last_snoc.
Qed.

(** X13: the diagram names a template by the last component of its path
    only: for a file name (not empty, not [.], without [/]) the name drawn
    for the file in any directory is the file name itself, so two templates
    of the same file name in different directories are drawn as one node.
    The test [src not in ("(unknown)",)] changes nothing, since the last
    component of [(unknown)] is [(unknown)]. *)
Theorem short_name_is_file_name p :
  short_name p = path_name p ∧
  (∀ d n, file_name n = true → p = d ++ "/" ++ n → short_name p = n) ∧
  (file_name p = true → short_name p = p).
Proof.
  assert (short_name p = path_name p) as E.
  { unfold short_name. case_decide as H; [done|].
    destruct (decide (p = "(unknown)")) as [->|Hp]; [|by destruct H].
    vm_compute. reflexivity. }
  rewrite E. split; [done|]. split.
  - intros d n Hn ->. by apply path_name_in_directory.
  - apply path_name_file.
Qed.

(** ** Template discovery: what is returned *)

Lemma fnmatch_literal pat name :
  literal_pattern pat = true → fnmatch pat name = String.eqb name pat.
Proof.
  unfold literal_pattern. revert name; induction pat as [|c pat IH]; intros name.
  - intros _. cbn [fnmatch]. destruct name; [done|]. by rewrite bool_decide_eq_false_2.
  - cbn [forall_chars fnmatch]. intros [Hc Hpat]%andb_true_iff.
    apply negb_true_iff, orb_false_iff in Hc as [-> Hq].
    destruct name as [|d name]; [done|]. rewrite Hq, IH by done. cbn [orb String.eqb].
    rewrite (Ascii.eqb_sym c d). done.
Qed.

Lemma fnmatch_star_literal pat name :
  literal_pattern pat = true → fnmatch (String "*" pat) name = ends_with pat name.
Proof.
  intros Hpat. cbn [fnmatch]. rewrite Ascii.eqb_refl.
  induction name as [|a name IH]; cbn [ends_with]; by rewrite fnmatch_literal, ?IH.
Qed.

Lemma extensions_disjoint name :
  ends_with ".yml" name = true → ends_with ".yaml" name = false.
Proof.
  induction name as [|a name IH]; [done|]. cbn [ends_with].
  intros [E|E]%orb_true_iff.
  - apply String.eqb_eq in E. injection E as -> ->. vm_compute. reflexivity.
  - rewrite (IH E), orb_false_r. apply String.eqb_neq. intros [= -> ->]. by vm_compute in E.
Qed.

Lemma NoDup_filter_names (P : string * fs_node → Prop) `{∀ e, Decision (P e)}
    (entries : list (string * fs_node)) :
  NoDup entries.*1 → NoDup ((λ e, [e.1]) <$> filter P entries).
Proof.
  intros Hnd. induction entries as [|e entries IH]; [constructor|].
  cbn [fmap list_fmap] in Hnd. apply NoDup_cons in Hnd as [Hin Hnd].
  destruct (decide (P e)); [|by rewrite filter_cons_False; [apply IH|]].
  rewrite filter_cons_True by done. cbn [fmap list_fmap]. apply NoDup_cons. split; [|by apply IH].
  intros (e' & [= E] & [_ He']%list_elem_of_filter)%list_elem_of_fmap.
  apply Hin, list_elem_of_fmap. by exists e'.
Qed.

(** X14: [find_cfn_templates] returns the entries of the directory itself
    whose name ends in [.yml], in the order of the directory, followed by
    those whose name ends in [.yaml]; whether an entry is a file or a
    directory is never looked at, nothing is returned for a path that is not
    a directory, and when the names in the directory are distinct no entry
    is returned twice. *)
Theorem find_cfn_templates_spec d :
  (∀ p, p ∈ find_cfn_templates d ↔
        ∃ entries name node, d = Dir entries ∧ (name, node) ∈ entries ∧ p = [name] ∧
          (ends_with ".yml" name = true ∨ ends_with ".yaml" name = true)) ∧
  (∀ entries, d = Dir entries →
     find_cfn_templates d
     = ((λ e, [e.1]) <$> filter (λ e, ends_with ".yml" e.1 = true) entries)
       ++ ((λ e, [e.1]) <$> filter (λ e, ends_with ".yaml" e.1 = true) entries))%list ∧
  (d = File → find_cfn_templates d = []) ∧
  (∀ entries, d = Dir entries → NoDup entries.*1 → NoDup (find_cfn_templates d)).
Proof.
  assert (∀ entries, find_cfn_templates (Dir entries)
     = ((λ e, [e.1]) <$> filter (λ e, ends_with ".yml" e.1 = true) entries)
       ++ ((λ e, [e.1]) <$> filter (λ e, ends_with ".yaml" e.1 = true) entries))%list as E.
  { intros entries. unfold find_cfn_templates, glob. f_equal; f_equal;
      apply list_filter_iff; intros e; by rewrite fnmatch_star_literal. }
  split; [|split; [|split]].
  - intros p. destruct d as [|entries].
    + split; [by intros ?%elem_of_nil|]. by intros (? & ? & ? & [=] & _).
    + rewrite E, elem_of_app, !list_elem_of_fmap. split.
      * intros [([name node] & -> & [He Hin]%list_elem_of_filter)
               |([name node] & -> & [He Hin]%list_elem_of_filter)];
          exists entries, name, node; cbn [fst] in *; eauto.
      * intros (? & name & node & [= <-] & Hin & -> & [He|He]); [left|right];
          exists (name, node); (split; [done|]); by apply list_elem_of_filter.
  - by intros entries ->.
  - by intros ->.
  - intros entries -> Hnd. rewrite E. apply NoDup_app.
    split; [by apply NoDup_filter_names|]. split; [|by apply NoDup_filter_names].
    intros p (e & -> & [He _]%list_elem_of_filter)%list_elem_of_fmap
             (e' & [= E'] & [He' _]%list_elem_of_filter)%list_elem_of_fmap.
    apply extensions_disjoint in He. congruence.
Qed.

Example find_cfn_templates_mixed :
  find_cfn_templates mixed_directory = [["a.yml"]; ["old.yml"]; [".yml"]; ["b.yaml"]].
Proof. vm_compute. reflexivity. Qed.

(** ** The scan as a whole *)

(** X15: a document that is a mapping is scanned to a result exactly when
    its [Outputs] are well shaped and every value keyed by [Fn::ImportValue]
    is a scalar.  Otherwise nothing is returned: ill-shaped [Outputs] raise
    the error of the export scan whatever the imports are, and with
    well-shaped [Outputs] a list or mapping under [Fn::ImportValue] raises
    [TypeError]; the scan for dynamic references never raises. *)
Theorem extract_outcome items :
  let D := VDict items in
  match extract_exports_and_imports D with
  | Ok r =>
      outputs_well_shaped D = true ∧ forallb hashable (import_values D) = true ∧
      dynamics r = list_to_set (AStr <$> found_markers D)
  | Raise e =>
      (outputs_well_shaped D = false ∧ scan_exports D = Raise e) ∨
      (outputs_well_shaped D = true ∧ forallb hashable (import_values D) = false ∧
       e = TypeError)
  end.
Proof.
  cbn zeta. unfold extract_exports_and_imports.
  destruct (outputs_well_shaped (VDict items)) eqn:H1.
  - rewrite scan_exports_ok by done. cbn [mbind result_bind].
    destruct (forallb hashable (import_values (VDict items))) eqn:H2.
    + rewrite find_imports_ok by done. cbn [mbind result_bind dynamics].
      rewrite find_dynamic_references_spec. split; [done|]. split; [done|].
      by rewrite (left_id_L ∅ (∪)).
    + rewrite find_imports_raise by done. cbn [mbind result_bind]. by right.
  - destruct (scan_exports_raise items H1) as [e ->]. cbn [mbind result_bind]. by left.
Qed.

(** ** The end of a run *)

(** X16: in [main], the warnings about self references come before the
    diagram is written and do not change the run: the outcome, the files and
    the primary stream are those of [generate_mermaid_text] alone, and the
    diagnostic stream holds the warnings followed by what
    [generate_mermaid_text] alone adds, which is at most one line.  So a
    failing write still shows the warnings, and a self reference never
    changes the exit status. *)
Theorem main_warns_then_renders ti output_file direction w :
  let run := main_from_template_info ti output_file direction w in
  let alone := generate_mermaid_text (build_dependency_graph ti).2 output_file direction w in
  run.1 = alone.1 ∧ files run.2 = files alone.2 ∧ stdout run.2 = stdout alone.2 ∧
  ∃ tail, (length tail ≤ 1)%nat ∧ stderr alone.2 = (stderr w ++ tail)%list ∧
          stderr run.2 = (stderr w ++ self_reference_warnings ti ++ tail)%list.
Proof.
  cbn zeta. unfold main_from_template_info, self_reference_warnings.
  cbn [build_dependency_graph snd].
  destruct (check_self_reference_frame ti w) as (H1 & H2 & H3 & H4).
  unfold generate_mermaid_text, emit.
  destruct output_file as [path|].
  - case_decide.
    + cbn [fst snd print files stdout stderr]. rewrite H2, H3, H4.
      do 3 (split; [done|]). exists []. split; [cbn; lia|].
      by rewrite !(right_id_L [] (++)).
    + rewrite H1. destruct (open_w w path) as [[]|];
        cbn [fst snd print print_stderr write_file files stdout stderr];
        rewrite ?H2, ?H3, ?H4; (do 3 (split; [done|]));
        [eexists [_]|eexists [_]|eexists [_]|exists []|exists []];
        (split; [cbn; lia|]); by rewrite ?(right_id_L [] (++)), <-?(assoc_L (++)).
  - cbn [fst snd print files stdout stderr]. rewrite H2, H3, H4.
    do 3 (split; [done|]). exists []. split; [cbn; lia|].
      by rewrite !(right_id_L [] (++)).
Qed.
